(** * cli/responder: prompting for a single-rune response

    A shallow embedding of [cli/responder/response.go] (package
    [responder] of nickwells/cli.mod) and the properties of its
    constructor, prompt renderer and response loop.

    Conventions.
    - A Go [rune] (int32) and a Go [int] are integers of [Z]; the only
      arithmetic the package performs on an [int] is [i++], whose 64-bit
      wrap-around is written out in [int_incr].
    - A Go [string] is a [string] of bytes; [%c] is rendered as UTF-8.
    - A Go [map[rune]string] is a [gmap Z string].
    - Standard output, standard error and the terminal input are fields of
      [World]; code that prints or reads is written in the state monad [IO].
    - The table-driven parts of Go's [unicode] package and the text wrapper
      [twrap] are outside the repository; they are the two interfaces
      [UnicodeTables] and [TextWrapper]. *)

From Stdlib Require Import ZArith String Ascii List Lia.
From stdpp Require Import base decidable option list sorting fin_maps gmap
  strings pretty.

Local Open Scope Z_scope.

Abbreviation rune := Z (only parsing).

(** ** Strings *)

Module Str.

Lemma app_nil_l (s : string) : "" +:+ s = s.
Proof. reflexivity. Qed.

Lemma app_cons (a : ascii) (s t : string) :
  String a s +:+ t = String a (s +:+ t).
Proof. reflexivity. Qed.

Lemma app_nil_r (s : string) : s +:+ "" = s.
Proof.
  induction s as [|a s IH]; [done|]. by rewrite app_cons, IH.
Qed.

Lemma app_assoc (s1 s2 s3 : string) :
  (s1 +:+ s2) +:+ s3 = s1 +:+ (s2 +:+ s3).
Proof.
  induction s1 as [|a s1 IH]; [done|]. by rewrite !app_cons, IH.
Qed.

(** The line feed that [Println] and [Fprintln] append. *)
Definition nl : string := String "010"%char "".

(** [strings.Repeat(s, count)] for a count that is not negative. *)
Fixpoint repeat (s : string) (count : nat) : string :=
  match count with
  | O => ""
  | S n => s +:+ repeat s n
  end.

(** [strings.Repeat(s, count)]: it panics when [count] is negative, which
    is [None] here. *)
Definition Repeat (s : string) (count : Z) : option string :=
  if count <? 0 then None else Some (repeat s (Z.to_nat count)).

End Str.

(** ** Runes: the parts of Go's [unicode] and [unicode/utf8] that are used *)

Definition helpRune : rune := 63.            (* '?' *)
Definition ReplacementChar : rune := 0xFFFD. (* unicode.ReplacementChar *)
Definition MaxRune : rune := 0x10FFFF.
Definition MaxASCII : rune := 0x7F.
Definition MaxLatin1 : rune := 0xFF.

(** The case tables of [unicode] beyond the ranges that the package's
    functions decide by themselves. *)
Class UnicodeTables := {
  (** [isExcludingLatin(Upper, r)], consulted by [IsUpper] beyond Latin-1 *)
  Upper_excluding_Latin : rune → bool;
  (** [To(LowerCase, r)], consulted by [ToLower] beyond ASCII *)
  To_LowerCase : rune → rune
}.

Module unicode.
Section unicode.
Context `{UnicodeTables}.

(** [uint32(r) <= MaxLatin1] for an int32 [r]. *)
Definition isLatin1 (r : rune) : bool := (0 <=? r) && (r <=? MaxLatin1).

(** [unicode.IsUpper]: within Latin-1 the property table has [pLu] at
    'A'..'Z', U+00C0..U+00D6 and U+00D8..U+00DE. *)
Definition IsUpper (r : rune) : bool :=
  if isLatin1 r then
    ((65 <=? r) && (r <=? 90))
    || ((0xC0 <=? r) && (r <=? 0xD6))
    || ((0xD8 <=? r) && (r <=? 0xDE))
  else Upper_excluding_Latin r.

(** [isExcludingLatin(White_Space, r)]: the ranges of the [White_Space]
    table above Latin-1. *)
Definition White_Space_excluding_Latin (r : rune) : bool :=
  (r =? 0x1680)
  || ((0x2000 <=? r) && (r <=? 0x200a))
  || ((0x2028 <=? r) && (r <=? 0x2029))
  || (r =? 0x202f) || (r =? 0x205f) || (r =? 0x3000).

(** [unicode.IsSpace] *)
Definition IsSpace (r : rune) : bool :=
  if isLatin1 r then
    ((9 <=? r) && (r <=? 13))      (* '\t', '\n', '\v', '\f', '\r' *)
    || (r =? 32) || (r =? 0x85) || (r =? 0xA0)
  else White_Space_excluding_Latin r.

(** [unicode.ToLower] *)
Definition ToLower (r : rune) : rune :=
  if r <=? MaxASCII then
    (if (65 <=? r) && (r <=? 90) then r + (97 - 65) else r)
  else To_LowerCase r.

End unicode.
End unicode.

Module utf8.

Definition byte (z : Z) : ascii := ascii_of_N (Z.to_N (z `mod` 256)).

Definition bytes (l : list Z) : string :=
  foldr (λ b s, String (byte b) s) "" l.

Definition isSurrogate (r : rune) : bool := (0xD800 <=? r) && (r <=? 0xDFFF).

(** [utf8.AppendRune(nil, r)]: negative runes, runes above [MaxRune] and
    surrogate halves are encoded as U+FFFD. *)
Definition EncodeRune (r : rune) : string :=
  if (0 <=? r) && (r <=? 0x7F) then bytes [r]
  else if (0 <=? r) && (r <=? 0x7FF) then
    bytes [Z.lor 0xC0 (r ≫ 6); Z.lor 0x80 (Z.land r 0x3F)]
  else
    let r := if (r <? 0) || (MaxRune <? r) || isSurrogate r
             then ReplacementChar else r in
    if r <=? 0xFFFF then
      bytes [Z.lor 0xE0 (r ≫ 12); Z.lor 0x80 (Z.land (r ≫ 6) 0x3F);
             Z.lor 0x80 (Z.land r 0x3F)]
    else
      bytes [Z.lor 0xF0 (r ≫ 18); Z.lor 0x80 (Z.land (r ≫ 12) 0x3F);
             Z.lor 0x80 (Z.land (r ≫ 6) 0x3F); Z.lor 0x80 (Z.land r 0x3F)].

End utf8.

Module fmt.

(** The verb [%c] applied to a rune. *)
Definition fmtC (c : rune) : string := utf8.EncodeRune c.

(** The verb [%d] applied to an int. *)
Definition fmtD (n : Z) : string := pretty n.

End fmt.

(** ** Errors *)

(** A Go [error] value: the sentinel [io.EOF], or any other error, of which
    the package only ever uses the message. *)
Inductive error : Type :=
  | io_EOF
  | errorString (msg : string).

Global Instance error_eq_dec : EqDecision error.
Proof. solve_decision. Defined.

(** [err.Error()] *)
Definition Error (e : error) : string :=
  match e with
  | io_EOF => "EOF"
  | errorString msg => msg
  end.

(** What a function of Go type [(T, error)] hands back when exactly one of
    the two is non-nil. *)
Inductive result (A : Type) : Type :=
  | Ok (a : A)
  | Err (e : error).
Global Arguments Ok {A} a.
Global Arguments Err {A} e.

(** ** The responder *)

(** The struct [R]. Its [fd] and [rdr] fields designate the terminal, which
    is the [stdin] of the [World] below. *)
Record R : Type := mkR {
  prompt : string;
  validResps : gmap Z string;
  hasDflt : bool;
  dflt : rune;
  maxReprompts : Z;
  limitPrompts : bool;
  indent : Z;
  indentFirst : Z
}.

(** The option functions that the package exports, one constructor for each
    function returning a [RespOptFunc]. *)
Inductive RespOptFunc : Type :=
  | SetDefault (d : rune)
  | SetMaxReprompts (maximum : Z)
  | SetIndents (indentFirst indent : Z).

Section responder.
Context `{UnicodeTables}.
Import unicode.

(** Running an option on the responder under construction. *)
Definition runOpt (o : RespOptFunc) (r : R) : result R :=
  match o with
  | SetDefault d =>
      match validResps r !! d with
      | None =>
          Err (errorString
                 ("SetDefault: the default response (" +:+ fmt.fmtC d
                  +:+ ") is not in the list of valid responses"))
      | Some _ =>
          Ok (mkR (prompt r) (validResps r) true d
                  (maxReprompts r) (limitPrompts r) (indent r) (indentFirst r))
      end
  | SetMaxReprompts maximum =>
      if maximum <=? 0 then
        Err (errorString
               ("SetMaxReprompts: the maximum number of reprompts ("
                +:+ fmt.fmtD maximum +:+ ") must be greater than 0"))
      else
        Ok (mkR (prompt r) (validResps r) (hasDflt r) (dflt r)
                maximum true (indent r) (indentFirst r))
  | SetIndents indentFirst' indent' =>
      if indent' <? 0 then
        Err (errorString
               ("SetIndents: the indent (" +:+ fmt.fmtD indent'
                +:+ ") must be greater than or equal to 0"))
      else if indentFirst' <? 0 then
        Err (errorString
               ("SetIndents: the first indent (" +:+ fmt.fmtD indentFirst'
                +:+ ") must be greater than or equal to 0"))
      else
        Ok (mkR (prompt r) (validResps r) (hasDflt r) (dflt r)
                (maxReprompts r) (limitPrompts r) indent' indentFirst')
  end.

(** The body of [for v := range responses] in [New], for one key. *)
Definition checkKey (v : rune) : option error :=
  if IsUpper v then
    Some (errorString
            ("only lowercase responses are allowed - '" +:+ fmt.fmtC v
             +:+ "' is uppercase"))
  else if IsSpace v then
    Some (errorString
            ("a whitespace character is not an allowed response"
             +:+ " - it is used to select the default response"))
  else if v =? helpRune then
    Some (errorString
            ("'" +:+ fmt.fmtC helpRune
             +:+ "' is not an allowed response - it is used to request help"))
  else None.

(** The loop over the keys, in the order in which [range] yields them. *)
Fixpoint checkKeys (keys : list rune) : option error :=
  match keys with
  | [] => None
  | v :: keys =>
      match checkKey v with
      | Some e => Some e
      | None => checkKeys keys
      end
  end.

(** [for _, o := range opts] in [New] *)
Fixpoint runOpts (opts : list RespOptFunc) (r : R) : result R :=
  match opts with
  | [] => Ok r
  | o :: opts =>
      match runOpt o r with
      | Err e => Err e
      | Ok r => runOpts opts r
      end
  end.

(** The keys of a map in the order of one [range] over it. Go leaves the
    order unspecified; [checkKeys_Permutation] shows that whether [New]
    fails does not depend on it. *)
Definition rangeKeys (m : gmap Z string) : list rune := (map_to_list m).*1.

(** [New] with the iteration order of its [range] made explicit. *)
Definition NewInOrder (keys : list rune)
    (text : string) (responses : gmap Z string) (opts : list RespOptFunc)
    : result R :=
  let r := mkR text ∅ false 0 0 false 0 0 in
  if (size responses <=? 1)%nat then
    Err (errorString "too few allowed responses - there must be at least 2")
  else
    match checkKeys keys with
    | Some e => Err e
    | None =>
        let r := mkR (prompt r) responses (hasDflt r) (dflt r)
                     (maxReprompts r) (limitPrompts r)
                     (indent r) (indentFirst r) in
        runOpts opts r
    end.

(** [New] *)
Definition New (text : string) (responses : gmap Z string)
    (opts : list RespOptFunc) : result R :=
  NewInOrder (rangeKeys responses) text responses opts.

End responder.


(** ** The world the methods act on *)

(** One [ReadRune] of the terminal: the rune and the error it returns. *)
Definition readRune : Type := (rune * option error)%type.

(** The terminal and the streams of the process, and the responder that the
    caller holds: the [*R] that [New] returned points at [responder]. *)
Record World : Type := mkWorld {
  responder : R;
  stdin : list readRune;
  stdout : string;
  stderr : string
}.

(** The state monad of code that prints and reads. *)
Definition IO (A : Type) : Type := World → A * World.

Global Instance IO_ret : MRet IO := λ A a w, (a, w).

Global Instance IO_bind : MBind IO :=
  λ A B k m w, let '(a, w') := m w in k a w'.

(** Writing [s] to standard output and to standard error. *)
Definition write_stdout (s : string) (w : World) : World :=
  mkWorld (responder w) (stdin w) (stdout w +:+ s) (stderr w).

Definition write_stderr (s : string) (w : World) : World :=
  mkWorld (responder w) (stdin w) (stdout w) (stderr w +:+ s).

Module os.

(** [fmt.Print(s)] and [fmt.Printf] of an already formatted [s] *)
Definition Print (s : string) : IO unit := λ w, (tt, write_stdout s w).

(** [fmt.Fprintln(os.Stderr, s)]; [fmt.Fprintln(os.Stderr)] is the case of
    the empty [s]. *)
Definition Fprintln_Stderr (s : string) : IO unit :=
  λ w, (tt, write_stderr (s +:+ Str.nl) w).

End os.

(** The text wrapper [twrap.TWConf] writes to standard output; what its two
    methods write is left to the library. *)
Class TextWrapper := {
  (** the text written by [twc.Wrap(text, indent)] *)
  Wrap : string → Z → string;
  (** the text written by [twc.WrapPrefixed(prefix, text, indent)] *)
  WrapPrefixed : string → string → Z → string
}.

(** [i++] on a 64-bit [int] *)
Definition int_incr (i : Z) : Z := (i + 1 + 2 ^ 63) `mod` 2 ^ 64 - 2 ^ 63.

(** How a call of [GetResponseIndent] can end. [OutOfFuel] is an artefact of
    the loop being written with a bound on its iterations;
    [GetResponseIndent_total] shows that it is never the outcome. *)
Inductive outcome (A : Type) : Type :=
  | Returns (a : A) (w : World)
  | Panics (msg : string) (w : World)
  | OutOfFuel.
Global Arguments Returns {A} a w.
Global Arguments Panics {A} msg w.
Global Arguments OutOfFuel {A}.

Section methods.
Context `{UnicodeTables} `{TextWrapper}.
Import unicode.

(** [getSortedValidResponses]: the keys, sorted with [keys[i] < keys[j]] as
    the order. The keys of a map are distinct, so every order of collecting
    them and every sorting algorithm gives the same slice
    ([sorted_keys_unique]). *)
Definition getSortedValidResponses (r : R) : list rune :=
  merge_sort Z.le (rangeKeys (validResps r)).

(** The loop [for _, c := range responses] of [PrintValidResponses]; it
    returns the final value of [sep]. *)
Fixpoint printResponses (r : R) (responses : list rune) (sep : string)
    : IO string :=
  match responses with
  | [] => mret sep
  | c :: responses =>
      if hasDflt r && (c =? dflt r) then printResponses r responses sep
      else
        os.Print (sep +:+ fmt.fmtC c) ;;
        printResponses r responses "/"
  end.

(** [PrintValidResponses] *)
Definition PrintValidResponses (r : R) : IO unit :=
  os.Print "(" ;;
  let responses := getSortedValidResponses r in
  sep ← (if hasDflt r then
            os.Print ("[" +:+ fmt.fmtC (dflt r) +:+ "]") ;; mret "/"
          else mret "");
  sep ← printResponses r responses sep;
  os.Print (sep +:+ fmt.fmtC helpRune +:+ "): ").

(** [PrintPrompt] *)
Definition PrintPrompt (r : R) : IO unit :=
  os.Print (prompt r) ;;
  os.Print "? " ;;
  PrintValidResponses r.

(** [r.validResps[k]] read as a value: the empty string for a missing key *)
Definition description (r : R) (k : rune) : string :=
  default "" (validResps r !! k).

(** The loop [for _, k := range keys] of [PrintHelpIndent] *)
Fixpoint printHelpKeys (r : R) (keys : list rune) (indent : Z) : IO unit :=
  match keys with
  | [] => mret tt
  | k :: keys =>
      if hasDflt r && (dflt r =? k) then printHelpKeys r keys indent
      else
        os.Print (WrapPrefixed (fmt.fmtC k +:+ "  ") (description r k)
                               (indent + 4)) ;;
        printHelpKeys r keys indent
  end.

(** [PrintHelpIndent] *)
Definition PrintHelpIndent (r : R) (indent : Z) : IO unit :=
  os.Print Str.nl ;;
  os.Print (Wrap "Enter one of:" indent) ;;
  let keys := getSortedValidResponses r in
  (if hasDflt r then
     os.Print (WrapPrefixed (fmt.fmtC (dflt r) +:+ "  ")
                 (description r (dflt r) +:+ " (this is the default)")
                 (indent + 4))
   else mret tt) ;;
  printHelpKeys r keys indent ;;
  os.Print (WrapPrefixed (fmt.fmtC helpRune +:+ "  ")
              ("to show this message" +:+ Str.nl) (indent + 4)) ;;
  os.Print (Wrap ("to select the default either enter the character or whitespace"
                  +:+ " (a space, tab or return character)") indent).

(** [PrintHelp] *)
Definition PrintHelp (r : R) : IO unit := PrintHelpIndent r (indent r).

(** [getRune]: one [ReadRune] of the terminal. Once the input is used up the
    reader reports [io.EOF]. Switching the terminal to raw mode and back
    changes neither the rune nor the error. *)
Definition getRune (r : R) : IO readRune := λ w,
  match stdin w with
  | [] => ((0, Some io_EOF), w)
  | rd :: rest => (rd, mkWorld (responder w) rest (stdout w) (stderr w))
  end.

(** [getResp] *)
Definition getResp (r : R) : IO (rune * option error) :=
  '(resp, err) ← getRune r;
  match err with
  | Some e => mret (ReplacementChar, Some e)
  | None =>
      if hasDflt r && IsSpace resp then mret (dflt r, None)
      else if negb (resp =? helpRune) then
        let resp := ToLower resp in
        match validResps r !! resp with
        | None =>
            mret (ReplacementChar,
                 Some (errorString ("Bad response: " +:+ fmt.fmtC resp)))
        | Some _ => mret (resp, None)
        end
      else mret (resp, None)
  end.

(** [err == nil || err == io.EOF] *)
Definition nil_or_EOF (err : option error) : bool :=
  match err with
  | None => true
  | Some io_EOF => true
  | Some (errorString _) => false
  end.

(** The [for] loop of [GetResponseIndent], at most [fuel] iterations of it.
    Beside the response and the error it returns the final value of the
    attempt counter [i], which the method itself drops. *)
Fixpoint responseLoop (fuel : nat) (r : R) (second : Z) (secondPrefix : string)
    (i : Z) (prefix : string) (w : World)
    : outcome (Z * (rune * option error)) :=
  match fuel with
  | O => OutOfFuel
  | S fuel =>
      let '(_, w) := (os.Print prefix ;; PrintPrompt r) w in
      let prefix := secondPrefix in
      let '((response, err), w) := getResp r w in
      if response =? helpRune then
        let '(_, w) := PrintHelpIndent r second w in
        responseLoop fuel r second secondPrefix i prefix w
      else
        let i := int_incr i in
        if nil_or_EOF err then Returns (i, (response, err)) w
        else if limitPrompts r && (maxReprompts r <? i) then
          Returns (i, (response, err)) w
        else
          let '(_, w) :=
            (os.Fprintln_Stderr "" ;;
             os.Fprintln_Stderr
               (prefix +:+ "    " +:+ from_option Error "" err)) w in
          responseLoop fuel r second secondPrefix i prefix w
  end.

(** [GetResponseIndent] up to the [for] loop, keeping the attempt counter:
    [strings.Repeat] panics on a negative indent. Every iteration that does
    not return consumes one read, and a read past the end of the input is
    [io.EOF], which returns: [S (length (stdin w))] iterations suffice. *)
Definition GetResponseIndent_counting (r : R) (first second : Z) (w : World)
    : outcome (Z * (rune * option error)) :=
  let i := 0 in
  match Str.Repeat " " first with
  | None => Panics "strings: negative Repeat count" w
  | Some prefix =>
      match Str.Repeat " " second with
      | None => Panics "strings: negative Repeat count" w
      | Some secondPrefix =>
          responseLoop (S (length (stdin w))) r second secondPrefix i prefix w
      end
  end.

(** [GetResponseIndent] *)
Definition GetResponseIndent (r : R) (first second : Z) (w : World)
    : outcome (rune * option error) :=
  match GetResponseIndent_counting r first second w with
  | Returns (_, res) w => Returns res w
  | Panics msg w => Panics msg w
  | OutOfFuel => OutOfFuel
  end.

(** [GetResponse] *)
Definition GetResponse (r : R) (w : World) : outcome (rune * option error) :=
  GetResponseIndent r (indentFirst r) (indent r) w.

(** A call [p.m()] through the pointer [p] that [New] returned: the method
    has a value receiver, so it runs on a copy of [*p]. *)
Definition invoke {A} (m : R → World → A) (w : World) : A := m (responder w) w.

End methods.


(** ** Derived notions used to state the properties *)

Section notions.
Context `{UnicodeTables} `{TextWrapper}.
Import unicode.

(** The world after [rd] has been typed ahead of the pending input. *)
Definition feed (rd : readRune) (w : World) : World :=
  mkWorld (responder w) (rd :: stdin w) (stdout w) (stderr w).

(** The world in which [reads] are pending ahead of the input of [w]. *)
Definition typed (reads : list readRune) (w : World) : World :=
  foldr feed w reads.

(** A rune delivered without a read error. *)
Definition key (c : rune) : readRune := (c, None).

(** The indent that [strings.Repeat(" ", n)] makes of an [n] that is not
    negative. *)
Definition spaces (n : Z) : string := Str.repeat " " (Z.to_nat n).

(** What [getResp] returns when the terminal delivers [rd]. *)
Definition respond (r : R) (rd : readRune) : rune * option error :=
  fst (getResp r (mkWorld r [rd] "" "")).

(** The responses that [PrintValidResponses] and [PrintHelpIndent] list
    after the default: the sorted keys without the default. *)
Definition remaining (r : R) : list rune :=
  filter (λ c, ¬ (hasDflt r = true ∧ c = dflt r)) (getSortedValidResponses r).

(** The text written by the loop of [PrintValidResponses] over [kept]
    starting with separator [sep], and the separator it leaves. *)
Definition listText (sep : string) (kept : list rune) : string :=
  match kept with
  | [] => ""
  | _ => sep +:+ String.concat "/" (fmt.fmtC <$> kept)
  end.

Definition sepAfter (sep : string) (kept : list rune) : string :=
  match kept with
  | [] => sep
  | _ => "/"
  end.

(** The text that [PrintValidResponses] and [PrintPrompt] write. *)
Definition validResponsesText (r : R) : string :=
  let sep := if hasDflt r then "/" else "" in
  "("
  +:+ (if hasDflt r then "[" +:+ fmt.fmtC (dflt r) +:+ "]" else "")
  +:+ listText sep (remaining r)
  +:+ (sepAfter sep (remaining r) +:+ fmt.fmtC helpRune +:+ "): ").

Definition promptText (r : R) : string :=
  prompt r +:+ "? " +:+ validResponsesText r.

(** The text that [PrintHelpIndent] writes. *)
Definition helpText (r : R) (indent : Z) : string :=
  stdout (snd (PrintHelpIndent r indent (mkWorld r [] "" ""))).

(** The prompt line as the specification words it: the prompt, ["? ("], the
    bracketed default and a slash if there is a default, the other responses
    [rest] joined by slashes, ["/?"] and ["): "]. *)
Definition promptLine (text : string) (default : option rune)
    (rest : list rune) : string :=
  text +:+ "? ("
  +:+ match default with
      | Some d => "[" +:+ fmt.fmtC d +:+ "]" +:+ "/"
      | None => ""
      end
  +:+ String.concat "/" (fmt.fmtC <$> rest)
  +:+ "/?" +:+ "): ".

(** The configured default, if any. *)
Definition default_of (r : R) : option rune :=
  if hasDflt r then Some (dflt r) else None.

(** The computation [m] returns [a] and writes [t] to standard output,
    whatever the world it runs in, touching nothing else. *)
Definition writes {A} (m : IO A) (a : A) (t : string) : Prop :=
  ∀ w, m w = (a, write_stdout t w).

(** What [getResp] relies on when it folds the case of [c]: folding twice
    changes nothing more, and the folded rune is neither the help rune nor
    whitespace. Go's tables satisfy it for every rune that is neither; for
    ASCII it is [lowercase_stable_ascii]. *)
Definition lowercase_stable (c : rune) : Prop :=
  ToLower (ToLower c) = ToLower c
  ∧ ToLower c ≠ helpRune
  ∧ IsSpace (ToLower c) = false.

(** An invalid character: not whitespace while a default is configured,
    not the help rune, and not a valid response once in lower case. *)
Definition invalid (r : R) (c : rune) : Prop :=
  hasDflt r && IsSpace c = false
  ∧ c ≠ helpRune
  ∧ validResps r !! ToLower c = None.

(** The error of [getResp] for an invalid character [c]. *)
Definition BadResponse (c : rune) : error :=
  errorString ("Bad response: " +:+ fmt.fmtC (ToLower c)).

(** What an attempt that failed with [e] leaves on standard error when the
    loop goes on: an empty line and the indented message. *)
Definition complaint (secondPrefix : string) (e : error) : string :=
  ("" +:+ Str.nl) +:+ ((secondPrefix +:+ "    " +:+ Error e) +:+ Str.nl).

(** What the loop of [GetResponseIndent] does with an attempt that failed
    with the error [e] (neither nil nor [io.EOF]), counted [i] attempts
    before it, in the world [w] after the prompt and the read. *)
Definition afterFailedAttempt (fuel : nat) (r : R) (second : Z)
    (secondPrefix : string) (i : Z) (e : error) (w : World)
    : outcome (Z * (rune * option error)) :=
  if limitPrompts r && (maxReprompts r <? int_incr i) then
    Returns (int_incr i, (ReplacementChar, Some e)) w
  else
    responseLoop fuel r second secondPrefix (int_incr i) secondPrefix
      (write_stderr (complaint secondPrefix e) w).

(** The invariants that [New] establishes. *)
Record Valid (r : R) : Prop := {
  valid_size : (2 ≤ size (validResps r))%nat;
  valid_keys : ∀ k, is_Some (validResps r !! k) →
    IsUpper k = false ∧ IsSpace k = false ∧ k ≠ helpRune;
  valid_dflt : hasDflt r = true → is_Some (validResps r !! dflt r);
  valid_max : limitPrompts r = true → 0 < maxReprompts r;
  valid_indent : 0 ≤ indent r;
  valid_indentFirst : 0 ≤ indentFirst r
}.

(** When an option returns an error, as a condition on the option and the
    candidate responses. *)
Definition optFails (responses : gmap Z string) (o : RespOptFunc) : Prop :=
  match o with
  | SetDefault d => responses !! d = None
  | SetMaxReprompts maximum => maximum ≤ 0
  | SetIndents indentFirst indent => indentFirst < 0 ∨ indent < 0
  end.

(** The world and the outcome of a call, whatever way it ended. *)
Definition world_after {A} (o : outcome A) (w : World) : World :=
  match o with
  | Returns _ w' => w'
  | Panics _ w' => w'
  | OutOfFuel => w
  end.

(** [n] calls of [GetResponse] in a row through the caller's pointer. *)
Fixpoint GetResponse_times (n : nat) (w : World) : World :=
  match n with
  | O => w
  | S n => GetResponse_times n (world_after (invoke GetResponse w) w)
  end.

(** The error returned once the retries are used up as the specification
    words it: a [RetriesExhausted] error, which is not the error of any
    single attempt. *)
Definition returns_RetriesExhausted (r : R) (w : World) : Prop :=
  ∃ c e w', GetResponse r w = Returns (c, Some e) w'
            ∧ ∀ rd, snd (respond r rd) ≠ Some e.

End notions.

(** ** A concrete library, and the responders of the package's examples *)

Module Latin1.

(** [To(LowerCase, r)] on Latin-1; runes beyond it are left as they are. *)
Definition toLower (r : rune) : rune :=
  if ((0xC0 <=? r) && (r <=? 0xD6)) || ((0xD8 <=? r) && (r <=? 0xDE))
  then r + 32 else r.

(** Case tables that agree with Go's on Latin-1 and know no cased rune
    beyond it. *)
#[export] Instance tables : UnicodeTables :=
  {| Upper_excluding_Latin := λ _, false; To_LowerCase := toLower |}.

(** A wrapper for text short enough to need no line break. *)
#[export] Instance wrapper : TextWrapper :=
  {| Wrap := λ text indent,
       Str.repeat " " (Z.to_nat indent) +:+ text +:+ Str.nl;
     WrapPrefixed := λ prefix text indent,
       Str.repeat " " (Z.to_nat indent) +:+ prefix +:+ text +:+ Str.nl |}.

(** The responses of [ExampleR_PrintPrompt_noDefault]: 'y' and 'n'. *)
Definition yn : gmap Z string :=
  <[121 := "delete the file"]> (<[110 := "leave the file alone"]> ∅).

Definition zeroR : R := mkR "" ∅ false 0 0 false 0 0.

Definition built (res : result R) : R :=
  match res with
  | Ok r => r
  | Err _ => zeroR
  end.

(** The responder of [ExampleR_PrintPrompt_noDefault] *)
Definition noDefault : R := built (New "Delete File" yn []).

(** The responder of [ExampleR_PrintPrompt_withDefault] *)
Definition withDefault : R := built (New "Delete File" yn [SetDefault 121]).

(** The same responses with at most two reprompts. *)
Definition twoReprompts : R :=
  built (New "Delete File" yn [SetMaxReprompts 2]).

(** A terminal on which [keys] are typed, nothing printed yet. *)
Definition typing (r : R) (keys : list rune) : World :=
  mkWorld r ((λ c, (c, None)) <$> keys) "" "".

End Latin1.


(** * Properties *)

(** ** Runes *)

Section rune_facts.
Context `{UnicodeTables}.
Import unicode.

Ltac unfold_runes :=
  unfold lowercase_stable, ToLower, IsSpace, IsUpper, isLatin1,
    White_Space_excluding_Latin, MaxLatin1, MaxASCII, helpRune in *.

(** Case analysis on every comparison of integers in sight. *)
Ltac split_comparisons :=
  repeat match goal with
         | |- context [Z.leb ?a ?b] => destruct (Z.leb_spec a b); try lia
         | |- context [Z.eqb ?a ?b] => destruct (Z.eqb_spec a b); try lia
         | H : context [Z.leb ?a ?b] |- _ => destruct (Z.leb_spec a b); try lia
         | H : context [Z.eqb ?a ?b] |- _ => destruct (Z.eqb_spec a b); try lia
         end;
  simpl in *; try done; try lia.

Lemma ToLower_ascii (c : rune) :
  c ≤ MaxASCII → ToLower c = if (65 <=? c) && (c <=? 90) then c + 32 else c.
Proof.
  intros Hc. unfold ToLower.
  destruct (Z.leb_spec c MaxASCII) as [_|?]; [done | lia].
Qed.

(** The whitespace of ASCII has no other lower-case form. *)
Lemma ToLower_ascii_space (c : rune) :
  c ≤ MaxASCII → IsSpace c = true → ToLower c = c.
Proof.
  intros Hc Hsp. rewrite ToLower_ascii by done.
  unfold_runes. split_comparisons.
Qed.

Lemma ToLower_ascii_range (c : rune) :
  c ≤ MaxASCII → ToLower c ≤ MaxASCII ∧ ¬ (65 ≤ ToLower c ≤ 90).
Proof.
  intros Hc. rewrite ToLower_ascii by done. unfold MaxASCII in *.
  destruct ((65 <=? c) && (c <=? 90)) eqn:Hup; lia.
Qed.

Lemma ToLower_ascii_idemp (c : rune) :
  c ≤ MaxASCII → ToLower (ToLower c) = ToLower c.
Proof.
  intros Hc. destruct (ToLower_ascii_range c Hc) as [Hle Hnot].
  rewrite (ToLower_ascii (ToLower c)) by done.
  destruct ((65 <=? ToLower c) && (ToLower c <=? 90)) eqn:Hup; lia.
Qed.

Lemma IsSpace_ascii (c : rune) :
  c ≤ MaxASCII →
  IsSpace c = ((9 <=? c) && (c <=? 13)) || (c =? 32).
Proof.
  intros Hc. unfold_runes. split_comparisons.
Qed.

Lemma lowercase_stable_ascii (c : rune) :
  c ≤ MaxASCII → c ≠ helpRune → IsSpace c = false → lowercase_stable c.
Proof.
  intros Hc Hh Hsp. split; [by apply ToLower_ascii_idemp|].
  pose proof (ToLower_ascii_range c Hc) as [Hle _].
  rewrite IsSpace_ascii in Hsp |- * by done.
  rewrite ToLower_ascii in * by done. unfold helpRune in *.
  destruct ((65 <=? c) && (c <=? 90)) eqn:Hup; [|done].
  split; [lia|]. split_comparisons.
Qed.

End rune_facts.

(** ** The constructor *)

Section New_facts.
Context `{UnicodeTables}.
Import unicode.

Lemma checkKey_None (v : rune) :
  checkKey v = None ↔ IsUpper v = false ∧ IsSpace v = false ∧ v ≠ helpRune.
Proof.
  unfold checkKey.
  destruct (IsUpper v); [split; [done | by intros [? _]]|].
  destruct (IsSpace v); [split; [done | by intros (_ & ? & _)]|].
  destruct (Z.eqb_spec v helpRune); [split; [done | by intros (_ & _ & ?)]|].
  done.
Qed.

Lemma checkKeys_None (keys : list rune) :
  checkKeys keys = None ↔ ∀ v, v ∈ keys → checkKey v = None.
Proof.
  induction keys as [|k keys IH]; simpl.
  - split; [|done]. intros _ v Hv. by apply elem_of_nil in Hv.
  - destruct (checkKey k) eqn:Hk.
    + split; [done|]. intros Hall.
      specialize (Hall k (list_elem_of_here _ _)). congruence.
    + rewrite IH. split.
      * intros Hall v [->|Hv]%elem_of_cons; auto.
      * intros Hall v Hv. apply Hall. by apply list_elem_of_further.
Qed.

(** Whether the loop over the keys finds a fault does not depend on the
    order in which [range] yields them. *)
Lemma checkKeys_Permutation (keys keys' : list rune) :
  keys ≡ₚ keys' → checkKeys keys = None ↔ checkKeys keys' = None.
Proof.
  intros Hp. rewrite !checkKeys_None.
  split; intros Hall v Hv; apply Hall; [by rewrite Hp | by rewrite <- Hp].
Qed.

Lemma elem_of_rangeKeys (m : gmap Z string) (k : rune) :
  k ∈ rangeKeys m ↔ is_Some (m !! k).
Proof.
  unfold rangeKeys. rewrite list_elem_of_fmap. split.
  - intros [[k' v] [-> Hin]]. apply elem_of_map_to_list in Hin. by exists v.
  - intros [v Hv]. exists (k, v). split; [done|]. by apply elem_of_map_to_list.
Qed.

Lemma NoDup_rangeKeys (m : gmap Z string) : NoDup (rangeKeys m).
Proof. apply NoDup_fst_map_to_list. Qed.

Lemma length_rangeKeys (m : gmap Z string) : length (rangeKeys m) = size m.
Proof. unfold rangeKeys. by rewrite length_fmap, length_map_to_list. Qed.

Lemma runOpt_Ok_inv (o : RespOptFunc) (r r' : R) :
  runOpt o r = Ok r' → prompt r' = prompt r ∧ validResps r' = validResps r.
Proof.
  destruct o as [d|m|f i]; simpl.
  - destruct (validResps r !! d); [|done]. by intros [= <-].
  - destruct (m <=? 0); [done|]. by intros [= <-].
  - destruct (i <? 0); [done|]. destruct (f <? 0); [done|]. by intros [= <-].
Qed.

Lemma runOpt_fails (o : RespOptFunc) (r : R) :
  (∃ e, runOpt o r = Err e) ↔ optFails (validResps r) o.
Proof.
  destruct o as [d|m|f i]; simpl.
  - destruct (validResps r !! d); [split; [by intros [? ?] | done]|].
    split; [done | by eauto].
  - destruct (Z.leb_spec m 0); [split; [done | by eauto]|].
    split; [by intros [? ?] | lia].
  - destruct (Z.ltb_spec i 0); [split; [by auto | by eauto]|].
    destruct (Z.ltb_spec f 0); [split; [by auto | by eauto]|].
    split; [by intros [? ?] | lia].
Qed.

Lemma runOpt_cases (o : RespOptFunc) (r : R) :
  (∃ e, runOpt o r = Err e) ∨ (∃ r', runOpt o r = Ok r').
Proof. destruct (runOpt o r); eauto. Qed.

Lemma runOpts_fails (opts : list RespOptFunc) (r : R) :
  (∃ e, runOpts opts r = Err e)
  ↔ ∃ o, o ∈ opts ∧ optFails (validResps r) o.
Proof.
  revert r. induction opts as [|o opts IH]; intros r; simpl.
  - split; [by intros [? ?]|]. intros (o & Ho & _). by apply elem_of_nil in Ho.
  - destruct (runOpt o r) as [r'|e] eqn:Ho.
    + apply runOpt_Ok_inv in Ho as Hsame. destruct Hsame as [_ Hsame].
      rewrite IH, Hsame. split.
      * intros (o' & Hin & Hf). exists o'. split; [by apply list_elem_of_further|done].
      * intros (o' & [->|Hin]%elem_of_cons & Hf); [|by eauto].
        apply runOpt_fails in Hf as [e He]. congruence.
    + split; [|by eauto]. intros _. exists o.
      split; [apply list_elem_of_here|]. apply runOpt_fails. eauto.
Qed.

Lemma runOpt_Valid (o : RespOptFunc) (r r' : R) :
  Valid r → runOpt o r = Ok r' → Valid r'.
Proof.
  intros [Hsize Hkeys Hd Hm Hi Hf]. destruct o as [d|m|f i]; simpl.
  - destruct (validResps r !! d) eqn:Hlook; [|done]. intros [= <-].
    split; simpl; eauto.
  - destruct (Z.leb_spec m 0); [done|]. intros [= <-].
    split; simpl; eauto.
  - destruct (Z.ltb_spec i 0); [done|]. destruct (Z.ltb_spec f 0); [done|].
    intros [= <-]. split; simpl; eauto.
Qed.

Lemma runOpts_Valid (opts : list RespOptFunc) (r r' : R) :
  Valid r → runOpts opts r = Ok r' →
  Valid r' ∧ prompt r' = prompt r ∧ validResps r' = validResps r.
Proof.
  revert r. induction opts as [|o opts IH]; intros r Hv; simpl.
  - by intros [= <-].
  - destruct (runOpt o r) as [r1|e] eqn:Ho; [|done]. intros Hrest.
    apply runOpt_Ok_inv in Ho as Hsame. destruct Hsame as [Hp Hm].
    destruct (IH r1 (runOpt_Valid _ _ _ Hv Ho) Hrest) as (? & ? & ?).
    split; [done|]. split; congruence.
Qed.

(** What a responder returned by [New] is. *)
Lemma New_Ok_inv (text : string) (responses : gmap Z string)
    (opts : list RespOptFunc) (r : R) :
  New text responses opts = Ok r →
  Valid r ∧ prompt r = text ∧ validResps r = responses.
Proof.
  unfold New, NewInOrder. simpl.
  destruct (Nat.leb_spec (size responses) 1) as [|Hsize]; [done|].
  destruct (checkKeys (rangeKeys responses)) eqn:Hkeys; [done|].
  intros Hopts. apply runOpts_Valid in Hopts; [done|].
  split; simpl; [lia| |done|done|done|done].
  intros k Hk. apply checkKey_None.
  rewrite checkKeys_None in Hkeys. by apply Hkeys, elem_of_rangeKeys.
Qed.

Lemma New_Err_iff (text : string) (responses : gmap Z string)
    (opts : list RespOptFunc) :
  (∃ e, New text responses opts = Err e)
  ↔ (size responses < 2)%nat
    ∨ (∃ k, is_Some (responses !! k) ∧ checkKey k ≠ None)
    ∨ (∃ o, o ∈ opts ∧ optFails responses o).
Proof.
  unfold New, NewInOrder. simpl.
  destruct (Nat.leb_spec (size responses) 1) as [|Hsize].
  { split; [intros _; left; lia | eauto]. }
  destruct (checkKeys (rangeKeys responses)) eqn:Hkeys.
  - split; [intros _ | eauto]. right; left.
    destruct (decide (Forall (λ k, checkKey k = None) (rangeKeys responses)))
      as [Hall|Hex].
    + rewrite Forall_forall in Hall.
      apply checkKeys_None in Hall. congruence.
    + apply not_Forall_Exists in Hex; [|apply _].
      apply Exists_exists in Hex as (k & Hin & Hk).
      exists k. by rewrite <- elem_of_rangeKeys.
  - rewrite runOpts_fails. simpl. split; [by eauto|].
    intros [?|[(k & Hin & Hk)|?]]; [lia| |done].
    rewrite checkKeys_None in Hkeys.
    destruct Hk. by apply Hkeys, elem_of_rangeKeys.
Qed.

(** C4. [New] returns an error exactly when the map has fewer than two
    entries, a key is upper case, a key is whitespace, a key is the help
    rune, a [SetDefault] names a rune that is not a key, a [SetMaxReprompts]
    is given a value that is not positive, or a [SetIndents] is given a
    negative indent; otherwise it returns a responder with the given prompt
    and responses that satisfies the constructor's invariants. *)
Theorem New_error_exactly_when (text : string) (responses : gmap Z string)
    (opts : list RespOptFunc) :
  ((∃ e, New text responses opts = Err e)
   ↔ (size responses < 2)%nat
     ∨ (∃ k, is_Some (responses !! k) ∧ IsUpper k = true)
     ∨ (∃ k, is_Some (responses !! k) ∧ IsSpace k = true)
     ∨ is_Some (responses !! helpRune)
     ∨ (∃ d, SetDefault d ∈ opts ∧ responses !! d = None)
     ∨ (∃ m, SetMaxReprompts m ∈ opts ∧ m ≤ 0)
     ∨ (∃ f i, SetIndents f i ∈ opts ∧ (f < 0 ∨ i < 0)))
  ∧ ((∃ e, New text responses opts = Err e)
     ∨ (∃ r, New text responses opts = Ok r
             ∧ prompt r = text ∧ validResps r = responses ∧ Valid r)).
Proof.
  split.
  - rewrite New_Err_iff. split.
    + intros [Hs|[(k & Hin & Hk)|(o & Hin & Hf)]]; [by left| |].
      * rewrite checkKey_None in Hk.
        destruct (IsUpper k) eqn:Hu; [right; left; by eauto|].
        destruct (IsSpace k) eqn:Hsp; [right; right; left; by eauto|].
        destruct (decide (k = helpRune)) as [->|Hh];
          [by right; right; right; left | by destruct Hk].
      * do 4 right. destruct o as [d|m|f i]; simpl in Hf.
        -- left. eauto.
        -- right; left. eauto.
        -- right; right. eauto.
    + intros [Hs|[(k & Hin & Hk)|[(k & Hin & Hk)|[Hh|Hopt]]]].
      * by left.
      * right; left. exists k. rewrite checkKey_None.
        split; [done|]. intros (? & _ & _). congruence.
      * right; left. exists k. rewrite checkKey_None.
        split; [done|]. intros (_ & ? & _). congruence.
      * right; left. exists helpRune. rewrite checkKey_None.
        split; [done|]. by intros (_ & _ & ?).
      * right; right.
        destruct Hopt as [(d & Hin & Hd)|[(m & Hin & Hm)|(f & i & Hin & Hfi)]].
        -- by exists (SetDefault d).
        -- by exists (SetMaxReprompts m).
        -- by exists (SetIndents f i).
  - destruct (New text responses opts) as [r|e] eqn:HNew; [right|left; eauto].
    exists r. apply New_Ok_inv in HNew as (? & ? & ?). done.
Qed.

End New_facts.

(** ** Printing *)

Section printing.
Context `{UnicodeTables} `{TextWrapper}.
Import unicode.

Lemma write_stdout_nil (w : World) : write_stdout "" w = w.
Proof. destruct w. unfold write_stdout; simpl. by rewrite Str.app_nil_r. Qed.

Lemma write_stdout_app (a b : string) (w : World) :
  write_stdout b (write_stdout a w) = write_stdout (a +:+ b) w.
Proof. unfold write_stdout; simpl. by rewrite Str.app_assoc. Qed.

Lemma write_stderr_app (a b : string) (w : World) :
  write_stderr b (write_stderr a w) = write_stderr (a +:+ b) w.
Proof. unfold write_stderr; simpl. by rewrite Str.app_assoc. Qed.

Lemma writes_ret {A} (a : A) : writes (mret a) a "".
Proof. intros w. unfold mret, IO_ret. by rewrite write_stdout_nil. Qed.

Lemma writes_Print (s : string) : writes (os.Print s) tt s.
Proof. by intros w. Qed.

Lemma writes_bind {A B} (m : IO A) (k : A → IO B) a b t1 t2 :
  writes m a t1 → writes (k a) b t2 → writes (m ≫= k) b (t1 +:+ t2).
Proof.
  intros Hm Hk w. unfold mbind, IO_bind. rewrite Hm, Hk.
  by rewrite write_stdout_app.
Qed.

Lemma writes_text {A} (m : IO A) a t t' : writes m a t → t = t' → writes m a t'.
Proof. by intros ? <-. Qed.

(** The text that a computation writes can be read off any run of it. *)
Lemma writes_stdout {A} (m : IO A) a t (r : R) :
  writes m a t → stdout (snd (m (mkWorld r [] "" ""))) = t.
Proof. intros Hm. by rewrite Hm. Qed.

Lemma concat_cons_cons (sep x y : string) (l : list string) :
  String.concat sep (x :: y :: l) = x +:+ sep +:+ String.concat sep (y :: l).
Proof. reflexivity. Qed.

Lemma listText_cons (sep : string) (c : rune) (kept : list rune) :
  (sep +:+ fmt.fmtC c) +:+ listText "/" kept = listText sep (c :: kept).
Proof.
  unfold listText. destruct kept as [|c' kept].
  - simpl. by rewrite Str.app_nil_r.
  - rewrite !fmap_cons, concat_cons_cons. by rewrite Str.app_assoc.
Qed.

Lemma skipped_iff (r : R) (c : rune) :
  hasDflt r && (c =? dflt r) = true ↔ hasDflt r = true ∧ c = dflt r.
Proof. rewrite andb_true_iff, Z.eqb_eq. done. Qed.

Lemma printResponses_writes (r : R) (cs : list rune) (sep : string) :
  writes (printResponses r cs sep)
    (sepAfter sep (filter (λ c, ¬ (hasDflt r = true ∧ c = dflt r)) cs))
    (listText sep (filter (λ c, ¬ (hasDflt r = true ∧ c = dflt r)) cs)).
Proof.
  revert sep. induction cs as [|c cs IH]; intros sep; simpl.
  { apply writes_ret. }
  destruct (hasDflt r && (c =? dflt r)) eqn:Hskip.
  - apply skipped_iff in Hskip.
    rewrite filter_cons_False by tauto. apply IH.
  - assert (¬ (hasDflt r = true ∧ c = dflt r)) as Hkeep.
    { rewrite <- skipped_iff. congruence. }
    rewrite filter_cons_True by done.
    intros w. unfold mbind, IO_bind, os.Print.
    rewrite (IH "/"), write_stdout_app, listText_cons.
    by destruct (filter _ cs).
Qed.

Lemma PrintValidResponses_writes (r : R) :
  writes (PrintValidResponses r) tt (validResponsesText r).
Proof.
  intros w. unfold PrintValidResponses, validResponsesText.
  unfold mbind, IO_bind, mret, IO_ret, os.Print.
  destruct (hasDflt r) eqn:Hd; rewrite printResponses_writes;
    unfold remaining; by rewrite !write_stdout_app, ?Str.app_assoc.
Qed.

Lemma PrintPrompt_writes (r : R) : writes (PrintPrompt r) tt (promptText r).
Proof.
  unfold PrintPrompt, promptText.
  eapply writes_bind; [apply writes_Print|].
  eapply writes_bind; [apply writes_Print|].
  apply PrintValidResponses_writes.
Qed.

Lemma printHelpKeys_writes (r : R) (keys : list rune) (indent : Z) :
  ∃ t, writes (printHelpKeys r keys indent) tt t.
Proof.
  induction keys as [|k keys [t IH]]; simpl.
  { eexists. apply writes_ret. }
  destruct (hasDflt r && (dflt r =? k)); [by eauto|].
  eexists. eapply writes_bind; [apply writes_Print | apply IH].
Qed.

Lemma PrintHelpIndent_writes (r : R) (indent : Z) :
  writes (PrintHelpIndent r indent) tt (helpText r indent).
Proof.
  assert (∃ t, writes (PrintHelpIndent r indent) tt t) as [t Ht].
  { unfold PrintHelpIndent.
    destruct (printHelpKeys_writes r (getSortedValidResponses r) indent)
      as [tk Hk].
    assert (∃ td, writes (if hasDflt r then
        os.Print (WrapPrefixed (fmt.fmtC (dflt r) +:+ "  ")
                    (description r (dflt r) +:+ " (this is the default)")
                    (indent + 4))
      else mret tt) tt td) as [td Hd].
    { destruct (hasDflt r); eexists; [apply writes_Print | apply writes_ret]. }
    eexists.
    eapply writes_bind; [apply writes_Print|].
    eapply writes_bind; [apply writes_Print|].
    eapply writes_bind; [apply Hd|].
    eapply writes_bind; [apply Hk|].
    eapply writes_bind; [apply writes_Print|].
    apply writes_Print. }
  unfold helpText. by rewrite (writes_stdout _ _ _ r Ht).
Qed.

Lemma PrintHelp_writes (r : R) : writes (PrintHelp r) tt (helpText r (indent r)).
Proof. apply PrintHelpIndent_writes. Qed.

End printing.

(** ** The sorted responses and the prompt line *)

Section prompt_line.
Context `{UnicodeTables} `{TextWrapper}.
Import unicode.

Lemma StronglySorted_le_lt (l : list Z) :
  StronglySorted Z.le l → NoDup l → StronglySorted Z.lt l.
Proof.
  induction 1 as [|x l Hl IH Hx]; intros Hnd; [constructor|].
  apply NoDup_cons in Hnd as [Hnotin Hnd].
  constructor; [by apply IH|].
  rewrite Forall_forall in Hx |- *. intros y Hy.
  specialize (Hx y Hy). assert (x ≠ y) by (by intros ->). lia.
Qed.

Lemma StronglySorted_lt_filter (P : Z → Prop) `{!∀ x, Decision (P x)}
    (l : list Z) :
  StronglySorted Z.lt l → StronglySorted Z.lt (filter P l).
Proof.
  induction 1 as [|x l Hl IH Hx]; [constructor|].
  rewrite filter_cons. destruct (decide (P x)); [|done].
  constructor; [done|].
  rewrite Forall_forall in Hx |- *.
  intros y [_ Hy]%list_elem_of_filter. by apply Hx.
Qed.

Lemma getSortedValidResponses_Permutation (r : R) :
  getSortedValidResponses r ≡ₚ rangeKeys (validResps r).
Proof. apply merge_sort_Permutation. Qed.

Lemma getSortedValidResponses_elem (r : R) (k : rune) :
  k ∈ getSortedValidResponses r ↔ is_Some (validResps r !! k).
Proof.
  by rewrite getSortedValidResponses_Permutation, elem_of_rangeKeys.
Qed.

Lemma getSortedValidResponses_sorted (r : R) :
  StronglySorted Z.lt (getSortedValidResponses r).
Proof.
  apply StronglySorted_le_lt.
  - apply (StronglySorted_merge_sort Z.le).
  - rewrite getSortedValidResponses_Permutation. apply NoDup_rangeKeys.
Qed.

(** Neither the order in which the keys are collected nor the sorting
    algorithm matters: the ascending arrangement of the keys is unique. *)
Lemma sorted_keys_unique (r : R) (keys : list rune) :
  keys ≡ₚ rangeKeys (validResps r) → StronglySorted Z.le keys →
  keys = getSortedValidResponses r.
Proof.
  intros Hp Hs. apply (StronglySorted_unique Z.le); [done| |].
  - apply (StronglySorted_merge_sort Z.le).
  - by rewrite getSortedValidResponses_Permutation.
Qed.

Lemma remaining_sorted (r : R) : StronglySorted Z.lt (remaining r).
Proof.
  apply StronglySorted_lt_filter, getSortedValidResponses_sorted.
Qed.

Lemma remaining_elem (r : R) (k : rune) :
  k ∈ remaining r
  ↔ is_Some (validResps r !! k) ∧ default_of r ≠ Some k.
Proof.
  unfold remaining, default_of.
  rewrite list_elem_of_filter, getSortedValidResponses_elem.
  destruct (hasDflt r); split.
  - intros [Hne Hk]. split; [done|]. intros [= Heq]. by apply Hne.
  - intros [Hk Hne]. split; [|done]. intros [_ Heq]. apply Hne. by rewrite Heq.
  - by intros [_ Hk].
  - intros [Hk _]. split; [|done]. by intros [? _].
Qed.

(** Two responses at least, of which at most one is the default: a
    responder built by [New] always has a response to list after it. *)
Lemma remaining_nonempty (r : R) : Valid r → remaining r ≠ [].
Proof.
  intros [Hsize _ _ _ _ _] Hnil.
  pose proof (NoDup_rangeKeys (validResps r)) as Hnd.
  pose proof (length_rangeKeys (validResps r)) as Hlen.
  destruct (rangeKeys (validResps r)) as [|k1 [|k2 ks]] eqn:Hkeys;
    simpl in Hlen; [lia..|].
  apply NoDup_cons in Hnd as [Hk1 _].
  assert (k1 ≠ k2) as Hne.
  { intros ->. apply Hk1, list_elem_of_here. }
  assert (∀ k, k ∈ [k1; k2] → is_Some (validResps r !! k)) as Hin.
  { intros k Hk. apply elem_of_rangeKeys. rewrite Hkeys.
    apply elem_of_cons in Hk as [->|Hk]; [apply list_elem_of_here|].
    apply list_elem_of_further.
    apply elem_of_cons in Hk as [->|Hk]; [apply list_elem_of_here|].
    by apply elem_of_nil in Hk. }
  assert (∀ k, k ∈ [k1; k2] → default_of r = Some k) as Hdef.
  { intros k Hk. destruct (decide (default_of r = Some k)) as [|Hno]; [done|].
    assert (k ∈ remaining r) as Hrem by (apply remaining_elem; auto).
    rewrite Hnil in Hrem. by apply elem_of_nil in Hrem. }
  assert (Some k1 = Some k2) as [= ?]; [|done].
  rewrite <- (Hdef k1), <- (Hdef k2); [done| |].
  - apply list_elem_of_further, list_elem_of_here.
  - apply list_elem_of_here.
Qed.

Lemma promptText_promptLine (r : R) :
  remaining r ≠ [] →
  promptText r = promptLine (prompt r) (default_of r) (remaining r).
Proof.
  intros Hne. unfold promptText, promptLine, validResponsesText, default_of.
  unfold listText, sepAfter.
  destruct (remaining r) as [|k ks]; [done|].
  destruct (hasDflt r); rewrite ?Str.app_assoc; reflexivity.
Qed.

(** C7. For a responder built by [New], [PrintPrompt] writes the prompt,
    ["? ("], the default in brackets and a slash if there is a default, the
    other responses in ascending order with slashes between them, ["/?"]
    and ["): "], and nothing else. *)
Theorem PrintPrompt_output (text : string) (responses : gmap Z string)
    (opts : list RespOptFunc) (r : R) (w : World) :
  New text responses opts = Ok r →
  ∃ rest,
    StronglySorted Z.lt rest
    ∧ (∀ k, k ∈ rest ↔ is_Some (responses !! k) ∧ default_of r ≠ Some k)
    ∧ PrintPrompt r w
      = (tt, write_stdout (promptLine text (default_of r) rest) w).
Proof.
  intros (Hvalid & <- & <-)%New_Ok_inv.
  exists (remaining r). split; [apply remaining_sorted|].
  split; [apply remaining_elem|].
  rewrite PrintPrompt_writes, promptText_promptLine; [done|].
  by apply remaining_nonempty.
Qed.

End prompt_line.

(** ** Reading one response *)

Section reading.
Context `{UnicodeTables} `{TextWrapper}.
Import unicode.

Lemma respond_rune (r : R) (c : rune) :
  respond r (key c)
  = if hasDflt r && IsSpace c then (dflt r, None)
    else if negb (c =? helpRune) then
      match validResps r !! ToLower c with
      | None => (ReplacementChar,
                 Some (errorString ("Bad response: " +:+ fmt.fmtC (ToLower c))))
      | Some _ => (ToLower c, None)
      end
    else (c, None).
Proof.
  unfold respond, getResp, getRune, mbind, IO_bind, mret, IO_ret. simpl.
  destruct (hasDflt r && IsSpace c); [done|].
  destruct (negb (c =? helpRune)); [|done].
  by destruct (validResps r !! ToLower c).
Qed.

Lemma respond_read_error (r : R) (c : rune) (e : error) :
  respond r (c, Some e) = (ReplacementChar, Some e).
Proof. reflexivity. Qed.

Lemma getResp_feed (r : R) (rd : readRune) (w : World) :
  getResp r (feed rd w) = (respond r rd, w).
Proof.
  destruct w as [c i o e], rd as [x [err|]].
  - reflexivity.
  - change (x, None) with (key x). rewrite respond_rune.
    unfold getResp, getRune, mbind, IO_bind, mret, IO_ret. simpl.
    destruct (hasDflt r && IsSpace x); [done|].
    destruct (negb (x =? helpRune)); [|done].
    by destruct (validResps r !! ToLower x).
Qed.

Lemma getResp_empty (r : R) (w : World) :
  stdin w = [] → getResp r w = ((ReplacementChar, Some io_EOF), w).
Proof.
  intros Hin. unfold getResp, getRune, mbind, IO_bind, mret, IO_ret.
  by rewrite Hin.
Qed.

(** An error always comes with the replacement character. *)
Lemma respond_error (r : R) (rd : readRune) (c : rune) (e : error) :
  respond r rd = (c, Some e) → c = ReplacementChar.
Proof.
  destruct rd as [x [err|]]; [by intros [= <- _]|].
  change (x, None) with (key x). rewrite respond_rune.
  destruct (hasDflt r && IsSpace x); [done|].
  destruct (negb (x =? helpRune)); [|done].
  destruct (validResps r !! ToLower x); [done|]. by intros [= <- _].
Qed.

(** The error of [getResp] itself is never [io.EOF]: only a read is. *)
Lemma respond_EOF (r : R) (rd : readRune) (c : rune) :
  respond r rd = (c, Some io_EOF) → snd rd = Some io_EOF.
Proof.
  destruct rd as [x [err|]]; [by intros [= _ ->]|].
  change (x, None) with (key x). rewrite respond_rune.
  destruct (hasDflt r && IsSpace x); [done|].
  destruct (negb (x =? helpRune)); [|done].
  by destruct (validResps r !! ToLower x).
Qed.

(** A rune that comes without an error is the help rune that was typed, the
    default or a key of the map. *)
Lemma respond_accepted (r : R) (rd : readRune) (c : rune) :
  respond r rd = (c, None) →
  (c = helpRune ∧ rd = key helpRune)
  ∨ (c = dflt r ∧ hasDflt r = true)
  ∨ is_Some (validResps r !! c).
Proof.
  destruct rd as [x [err|]]; [done|].
  change (x, None) with (key x). rewrite respond_rune.
  destruct (hasDflt r) eqn:Hd; simpl.
  - destruct (IsSpace x); [intros [= <-]; by auto|].
    destruct (Z.eqb_spec x helpRune) as [->|Hx]; simpl;
      [intros [= <-]; by auto|].
    destruct (validResps r !! ToLower x) eqn:Hk; [|done].
    intros [= <-]. right; right. by rewrite Hk.
  - destruct (Z.eqb_spec x helpRune) as [->|Hx]; simpl;
      [intros [= <-]; by auto|].
    destruct (validResps r !! ToLower x) eqn:Hk; [|done].
    intros [= <-]. right; right. by rewrite Hk.
Qed.

Lemma respond_accepted_Valid (r : R) (rd : readRune) (c : rune) :
  Valid r → respond r rd = (c, None) → c ≠ helpRune →
  is_Some (validResps r !! c).
Proof.
  intros Hv Hr Hc.
  destruct (respond_accepted r rd c Hr) as [[? _]|[[-> Hd]|?]]; [done| |done].
  by apply Hv.
Qed.

Lemma Valid_help_not_key (r : R) (c : rune) :
  Valid r → is_Some (validResps r !! c) → c ≠ helpRune.
Proof. intros Hv Hk. by apply (valid_keys r Hv c Hk). Qed.

Lemma int_incr_small (i : Z) :
  - 2 ^ 63 ≤ i < 2 ^ 63 - 1 → int_incr i = i + 1.
Proof.
  intros Hi. unfold int_incr.
  rewrite Z.mod_small by lia. lia.
Qed.

End reading.

(** ** One iteration of the response loop *)

Section iteration.
Context `{UnicodeTables} `{TextWrapper}.
Import unicode.

Lemma prompt_writes (r : R) (prefix : string) :
  writes (os.Print prefix ;; PrintPrompt r) tt (prefix +:+ promptText r).
Proof.
  eapply writes_bind; [apply writes_Print | apply PrintPrompt_writes].
Qed.

Lemma responseLoop_S fuel (r : R) second sp i prefix (w : World) :
  responseLoop (S fuel) r second sp i prefix w
  = let '(_, w) := (os.Print prefix ;; PrintPrompt r) w in
    let '((response, err), w) := getResp r w in
    if response =? helpRune then
      let '(_, w) := PrintHelpIndent r second w in
      responseLoop fuel r second sp i sp w
    else
      if nil_or_EOF err then Returns (int_incr i, (response, err)) w
      else if limitPrompts r && (maxReprompts r <? int_incr i) then
        Returns (int_incr i, (response, err)) w
      else
        let '(_, w) :=
          (os.Fprintln_Stderr "" ;;
           os.Fprintln_Stderr (sp +:+ "    " +:+ from_option Error "" err)) w in
        responseLoop fuel r second sp (int_incr i) sp w.
Proof. reflexivity. Qed.

(** The help rune: the help is printed and the loop goes on with the same
    count of attempts. *)
Lemma responseLoop_help fuel (r : R) second sp i prefix rd (w : World) :
  fst (respond r rd) = helpRune →
  responseLoop (S fuel) r second sp i prefix (feed rd w)
  = responseLoop fuel r second sp i sp
      (write_stdout (prefix +:+ promptText r +:+ helpText r second) w).
Proof.
  intros Hhelp. rewrite responseLoop_S, prompt_writes.
  change (write_stdout ?t (feed rd w)) with (feed rd (write_stdout t w)).
  rewrite getResp_feed. destruct (respond r rd) as [c err]. simpl in Hhelp.
  subst c. simpl. rewrite PrintHelpIndent_writes, write_stdout_app.
  by rewrite Str.app_assoc.
Qed.

(** A response without an error, or [io.EOF]: the loop returns at once. *)
Lemma responseLoop_return fuel (r : R) second sp i prefix rd c err (w : World) :
  respond r rd = (c, err) → c ≠ helpRune → nil_or_EOF err = true →
  responseLoop (S fuel) r second sp i prefix (feed rd w)
  = Returns (int_incr i, (c, err))
      (write_stdout (prefix +:+ promptText r) w).
Proof.
  intros Hr Hc Herr. rewrite responseLoop_S, prompt_writes.
  change (write_stdout ?t (feed rd w)) with (feed rd (write_stdout t w)).
  rewrite getResp_feed, Hr.
  destruct (Z.eqb_spec c helpRune); [done|]. by rewrite Herr.
Qed.

(** Any other error, from the read or from the check of the rune: the
    attempt is counted and the loop retries or gives up. *)
Lemma responseLoop_failed fuel (r : R) second sp i prefix rd c msg (w : World) :
  respond r rd = (c, Some (errorString msg)) →
  responseLoop (S fuel) r second sp i prefix (feed rd w)
  = afterFailedAttempt fuel r second sp i (errorString msg)
      (write_stdout (prefix +:+ promptText r) w).
Proof.
  intros Hr. pose proof (respond_error _ _ _ _ Hr) as ->.
  rewrite responseLoop_S, prompt_writes.
  change (write_stdout ?t (feed rd w)) with (feed rd (write_stdout t w)).
  rewrite getResp_feed, Hr. unfold afterFailedAttempt.
  change (ReplacementChar =? helpRune) with false. cbv iota.
  change (nil_or_EOF (Some (errorString msg))) with false. cbv iota.
  destruct (limitPrompts r && (maxReprompts r <? int_incr i)); [done|].
  unfold mbind, IO_bind, os.Fprintln_Stderr. by rewrite write_stderr_app.
Qed.

(** Input used up: the read reports [io.EOF] and the loop returns. *)
Lemma responseLoop_empty fuel (r : R) second sp i prefix (w : World) :
  stdin w = [] →
  responseLoop (S fuel) r second sp i prefix w
  = Returns (int_incr i, (ReplacementChar, Some io_EOF))
      (write_stdout (prefix +:+ promptText r) w).
Proof.
  intros Hin. rewrite responseLoop_S, prompt_writes.
  by rewrite getResp_empty.
Qed.

(** The four cases cover every read. *)
Lemma respond_cases (r : R) (rd : readRune) :
  fst (respond r rd) = helpRune
  ∨ (∃ c err, respond r rd = (c, err) ∧ c ≠ helpRune ∧ nil_or_EOF err = true)
  ∨ (∃ msg, respond r rd = (ReplacementChar, Some (errorString msg))).
Proof.
  destruct (respond r rd) as [c err] eqn:Hr. simpl.
  destruct (decide (c = helpRune)); [by left|right].
  destruct err as [[|msg]|]; [left|right|left]; try by eauto 6.
  pose proof (respond_error _ _ _ _ Hr) as ->. by eauto.
Qed.

End iteration.

(** ** The response loop as a whole *)

Section whole_loop.
Context `{UnicodeTables} `{TextWrapper}.
Import unicode.

Lemma stdin_typed (reads : list readRune) (w : World) :
  stdin (typed reads w) = reads ++ stdin w.
Proof. induction reads as [|rd reads IH]; simpl; [done|]. by rewrite IH. Qed.

Lemma write_stdout_typed (t : string) (reads : list readRune) (w : World) :
  write_stdout t (typed reads w) = typed reads (write_stdout t w).
Proof.
  induction reads as [|rd reads IH]; simpl; [done|].
  change (write_stdout t (feed rd ?v)) with (feed rd (write_stdout t v)).
  by rewrite IH.
Qed.

Lemma Repeat_spaces (n : Z) : 0 ≤ n → Str.Repeat " " n = Some (spaces n).
Proof.
  intros Hn. unfold Str.Repeat. by destruct (Z.ltb_spec n 0); [lia|].
Qed.

Lemma Repeat_negative (n : Z) : n < 0 → Str.Repeat " " n = None.
Proof.
  intros Hn. unfold Str.Repeat. by destruct (Z.ltb_spec n 0); [|lia].
Qed.

Lemma GetResponseIndent_counting_loop (r : R) first second (w : World) :
  0 ≤ first → 0 ≤ second →
  GetResponseIndent_counting r first second w
  = responseLoop (S (length (stdin w))) r second (spaces second) 0
      (spaces first) w.
Proof.
  intros Hf Hs. unfold GetResponseIndent_counting.
  by rewrite !Repeat_spaces.
Qed.

(** With more iterations allowed than reads pending, the loop returns; the
    caller's responder is as it was, the rune is never the help rune, an
    error comes with the replacement character, and a rune that comes
    without an error is the default or a key. *)
Lemma responseLoop_returns fuel (r : R) second sp i prefix (w : World) :
  (length (stdin w) < fuel)%nat →
  ∃ i' c err w',
    responseLoop fuel r second sp i prefix w = Returns (i', (c, err)) w'
    ∧ responder w' = responder w
    ∧ c ≠ helpRune
    ∧ (err ≠ None → c = ReplacementChar)
    ∧ (err = None →
       (c = dflt r ∧ hasDflt r = true) ∨ is_Some (validResps r !! c)).
Proof.
  revert i prefix w. induction fuel as [|fuel IH]; intros i prefix w Hlen;
    [lia|].
  destruct w as [cfg inp out errs]. destruct inp as [|rd rest].
  { rewrite responseLoop_empty by done. do 4 eexists.
    split; [done|]. split; [done|]. split; [done|]. split; done. }
  change (mkWorld cfg (rd :: rest) out errs)
    with (feed rd (mkWorld cfg rest out errs)).
  simpl in Hlen.
  destruct (respond_cases r rd)
    as [Hhelp|[(c & err & Hr & Hc & Herr)|(msg & Hr)]].
  - rewrite responseLoop_help by done.
    edestruct IH as (i' & c & err & w' & Heq & Hresp & Hrest);
      [|rewrite Heq; exists i', c, err, w';
        split; [done|]; split; [exact Hresp | exact Hrest]].
    simpl. lia.
  - rewrite (responseLoop_return _ _ _ _ _ _ _ _ _ _ Hr Hc Herr).
    do 4 eexists. split; [done|]. split; [done|]. split; [done|]. split.
    + destruct err as [e|]; [|done]. intros _. by eapply respond_error.
    + intros ->. destruct (respond_accepted _ _ _ Hr) as [[? _]|[?|?]]; auto.
      done.
  - rewrite (responseLoop_failed _ _ _ _ _ _ _ _ _ _ Hr).
    unfold afterFailedAttempt.
    destruct (limitPrompts r && (maxReprompts r <? int_incr i)).
    + do 4 eexists. split; [done|]. split; [done|]. split; [done|].
      split; done.
    + edestruct IH as (i' & c & err & w' & Heq & Hresp & Hrest);
        [|rewrite Heq; exists i', c, err, w';
          split; [done|]; split; [exact Hresp | exact Hrest]].
      simpl. lia.
Qed.

(** [GetResponseIndent] returns whenever neither indent is negative. *)
Lemma GetResponseIndent_returns (r : R) first second (w : World) :
  0 ≤ first → 0 ≤ second →
  ∃ c err w',
    GetResponseIndent r first second w = Returns (c, err) w'
    ∧ responder w' = responder w
    ∧ c ≠ helpRune
    ∧ (err ≠ None → c = ReplacementChar)
    ∧ (err = None →
       (c = dflt r ∧ hasDflt r = true) ∨ is_Some (validResps r !! c)).
Proof.
  intros Hf Hs. unfold GetResponseIndent.
  rewrite GetResponseIndent_counting_loop by done.
  destruct (responseLoop_returns (S (length (stdin w))) r second
              (spaces second) 0 (spaces first) w)
    as (i' & c & err & w' & -> & Hrest); [lia|].
  by exists c, err, w'.
Qed.

(** It panics exactly when an indent is negative, and the bound on the
    iterations of the loop is never reached. *)
Lemma GetResponseIndent_total (r : R) first second (w : World) :
  match GetResponseIndent r first second w with
  | Returns _ _ => 0 ≤ first ∧ 0 ≤ second
  | Panics _ w' => (first < 0 ∨ second < 0) ∧ w' = w
  | OutOfFuel => False
  end.
Proof.
  destruct (Z.ltb_spec first 0) as [Hf|Hf].
  { unfold GetResponseIndent, GetResponseIndent_counting.
    rewrite Repeat_negative by done. auto. }
  destruct (Z.ltb_spec second 0) as [Hs|Hs].
  { unfold GetResponseIndent, GetResponseIndent_counting.
    rewrite Repeat_spaces, Repeat_negative by done. auto. }
  destruct (GetResponseIndent_returns r first second w Hf Hs)
    as (c & err & w' & -> & _). done.
Qed.

Lemma GetResponseIndent_frame (r : R) first second (w : World) :
  responder (world_after (GetResponseIndent r first second w) w)
  = responder w.
Proof.
  pose proof (GetResponseIndent_total r first second w) as Ht.
  destruct (GetResponseIndent r first second w) as [a w'|msg w'|] eqn:Hg;
    simpl; [|by destruct Ht as [_ ->]|done].
  destruct Ht as [Hf Hs].
  destruct (GetResponseIndent_returns r first second w Hf Hs)
    as (c & err & w'' & Hg' & Hresp & _).
  rewrite Hg in Hg'. by injection Hg' as _ ->.
Qed.

(** The first read decides alone whether two runs differ: reads to which
    [getResp] responds alike lead to the same outcome. *)
Lemma responseLoop_respond_ext fuel (r : R) second sp i prefix rd rd'
    (w : World) :
  respond r rd = respond r rd' →
  responseLoop (S fuel) r second sp i prefix (feed rd w)
  = responseLoop (S fuel) r second sp i prefix (feed rd' w).
Proof.
  intros Heq. rewrite !responseLoop_S, !prompt_writes.
  change (write_stdout ?t (feed ?x w)) with (feed x (write_stdout t w)).
  by rewrite !getResp_feed, Heq.
Qed.

Lemma respond_help (r : R) : respond r (key helpRune) = (helpRune, None).
Proof.
  rewrite respond_rune.
  change (IsSpace helpRune) with false. by rewrite andb_false_r.
Qed.

Lemma respond_invalid (r : R) (c : rune) :
  invalid r c → respond r (key c) = (ReplacementChar, Some (BadResponse c)).
Proof.
  intros (Hsp & Hc & Hk). rewrite respond_rune, Hsp.
  destruct (Z.eqb_spec c helpRune); [done|]. simpl. by rewrite Hk.
Qed.

(** [n] help requests and then a response [c] that [getResp] accepts as
    [x]: the loop prints the prompt and the help [n] times, the prompt once
    more, and returns [x] with one attempt counted more than before. *)
Lemma responseLoop_helps (n : nat) fuel (r : R) second sp i prefix c x
    (w : World) :
  (n < fuel)%nat → respond r (key c) = (x, None) → x ≠ helpRune →
  responseLoop fuel r second sp i prefix
    (typed (replicate n (key helpRune) ++ [key c]) w)
  = Returns (int_incr i, (x, None))
      (write_stdout
         (prefix +:+ promptText r
          +:+ Str.repeat (helpText r second +:+ sp +:+ promptText r) n) w).
Proof.
  intros Hfuel Hr Hx. revert fuel prefix w Hfuel.
  induction n as [|n IH]; intros [|fuel] prefix w Hfuel; try lia.
  - change (typed (replicate 0 (key helpRune) ++ [key c]) w)
      with (feed (key c) w).
    rewrite (responseLoop_return _ _ _ _ _ _ _ _ _ _ Hr Hx eq_refl).
    change (Str.repeat ?s 0) with "". by rewrite Str.app_nil_r.
  - change (typed (replicate (S n) (key helpRune) ++ [key c]) w)
      with (feed (key helpRune) (typed (replicate n (key helpRune) ++ [key c]) w)).
    change (Str.repeat ?s (S n)) with (s +:+ Str.repeat s n).
    rewrite responseLoop_help by (by rewrite respond_help).
    rewrite write_stdout_typed, IH by lia.
    by rewrite write_stdout_app, !Str.app_assoc.
Qed.

End whole_loop.

(** ** The claims about the response loop *)

Section claims.
Context `{UnicodeTables} `{TextWrapper}.
Import unicode.

Lemma write_stdout_feed (t : string) (rd : readRune) (w : World) :
  write_stdout t (feed rd w) = feed rd (write_stdout t w).
Proof. reflexivity. Qed.

Lemma write_stderr_feed (t : string) (rd : readRune) (w : World) :
  write_stderr t (feed rd w) = feed rd (write_stderr t w).
Proof. reflexivity. Qed.

Lemma write_stdout_stderr (a b : string) (w : World) :
  write_stdout a (write_stderr b w) = write_stderr b (write_stdout a w).
Proof. reflexivity. Qed.

Lemma GetResponseIndent_feed (r : R) first second rd (w : World) :
  0 ≤ first → 0 ≤ second →
  GetResponseIndent_counting r first second (feed rd w)
  = responseLoop (S (S (length (stdin w)))) r second (spaces second) 0
      (spaces first) (feed rd w).
Proof. intros. by rewrite GetResponseIndent_counting_loop. Qed.

(** Three invalid characters against a limit of two reprompts. *)
Lemma three_invalid_attempts (r : R) (c1 c2 c3 : rune)
    (first second : Z) (w : World) :
  limitPrompts r = true → maxReprompts r = 2 →
  invalid r c1 → invalid r c2 → invalid r c3 →
  0 ≤ first → 0 ≤ second →
  GetResponseIndent r first second (typed [key c1; key c2; key c3] w)
  = Returns (ReplacementChar, Some (BadResponse c3))
      (write_stderr
         (complaint (spaces second) (BadResponse c1)
          +:+ complaint (spaces second) (BadResponse c2))
         (write_stdout
            (spaces first +:+ promptText r
             +:+ spaces second +:+ promptText r
             +:+ spaces second +:+ promptText r) w)).
Proof.
  intros Hlim Hmax H1%respond_invalid H2%respond_invalid H3%respond_invalid
    Hf Hs.
  unfold GetResponseIndent.
  change (typed [key c1; key c2; key c3] w)
    with (feed (key c1) (feed (key c2) (feed (key c3) w))).
  rewrite GetResponseIndent_feed by done.
  rewrite (responseLoop_failed _ _ _ _ _ _ _ _ _ _ H1).
  unfold afterFailedAttempt at 1. rewrite Hlim, Hmax.
  change (int_incr 0) with 1. change (true && (2 <? 1)) with false. cbv iota.
  rewrite !write_stdout_feed, !write_stderr_feed.
  change (length (stdin (feed ?rd ?v))) with (S (length (stdin v))).
  rewrite (responseLoop_failed _ _ _ _ _ _ _ _ _ _ H2).
  unfold afterFailedAttempt at 1. rewrite Hlim, Hmax.
  change (int_incr 1) with 2. change (true && (2 <? 2)) with false. cbv iota.
  rewrite !write_stdout_feed, !write_stderr_feed.
  rewrite (responseLoop_failed _ _ _ _ _ _ _ _ _ _ H3).
  unfold afterFailedAttempt. rewrite Hlim, Hmax.
  change (int_incr 2) with 3. change (true && (2 <? 3)) with true. cbv iota.
  rewrite !write_stdout_stderr, !write_stdout_app, !write_stderr_app.
  by rewrite !Str.app_assoc.
Qed.



(** Help requests and then an accepted response, with the counter. *)
Lemma helps_then_response (r : R) (n : nat) (c x : rune) (first second : Z)
    (w : World) :
  Valid r → c ≠ helpRune → respond r (key c) = (x, None) →
  0 ≤ first → 0 ≤ second →
  GetResponseIndent_counting r first second
    (typed (replicate n (key helpRune) ++ [key c]) w)
  = Returns (1, (x, None))
      (write_stdout
         (spaces first +:+ promptText r
          +:+ Str.repeat
                (helpText r second +:+ spaces second +:+ promptText r) n) w).
Proof.
  intros Hvalid Hc Hr Hf Hs.
  assert (x ≠ helpRune) as Hx.
  { destruct (respond_accepted _ _ _ Hr) as [[_ [= ?]]|[[-> Hd]|Hk]]; [done| |].
    - by apply (Valid_help_not_key r), Hvalid.
    - by apply (Valid_help_not_key r). }
  rewrite GetResponseIndent_counting_loop by done.
  rewrite (responseLoop_helps n _ r second _ 0 _ c x w); [done| |done..].
  rewrite stdin_typed, !length_app, length_replicate. lia.
Qed.

(** C2. After any number [n] of help requests and then one response that
    [getResp] accepts, the attempt counter of [GetResponseIndent], and so
    of [GetResponse], is 1: a help request prints the help, prompts again,
    and is not counted; the accepted response is returned. *)
Theorem help_is_not_an_attempt (text : string) (responses : gmap Z string)
    (opts : list RespOptFunc) (r : R) (n : nat) (c x : rune)
    (first second : Z) (w : World) :
  New text responses opts = Ok r →
  c ≠ helpRune → respond r (key c) = (x, None) →
  0 ≤ first → 0 ≤ second →
  GetResponseIndent_counting r first second
    (typed (replicate n (key helpRune) ++ [key c]) w)
  = Returns (1, (x, None))
      (write_stdout
         (spaces first +:+ promptText r
          +:+ Str.repeat
                (helpText r second +:+ spaces second +:+ promptText r) n) w)
  ∧ GetResponseIndent r first second
      (typed (replicate n (key helpRune) ++ [key c]) w)
    = Returns (x, None)
        (write_stdout
           (spaces first +:+ promptText r
            +:+ Str.repeat
                  (helpText r second +:+ spaces second +:+ promptText r) n) w)
  ∧ GetResponseIndent_counting r (indentFirst r) (indent r)
      (typed (replicate n (key helpRune) ++ [key c]) w)
    = Returns (1, (x, None))
        (write_stdout
           (spaces (indentFirst r) +:+ promptText r
            +:+ Str.repeat
                  (helpText r (indent r) +:+ spaces (indent r)
                   +:+ promptText r) n) w)
  ∧ GetResponse r (typed (replicate n (key helpRune) ++ [key c]) w)
    = Returns (x, None)
        (write_stdout
           (spaces (indentFirst r) +:+ promptText r
            +:+ Str.repeat
                  (helpText r (indent r) +:+ spaces (indent r)
                   +:+ promptText r) n) w).
Proof.
  intros (Hvalid & _ & _)%New_Ok_inv Hc Hr Hf Hs.
  pose proof (helps_then_response r n c x first second w
                Hvalid Hc Hr Hf Hs) as Hcount.
  pose proof (helps_then_response r n c x (indentFirst r) (indent r) w
                Hvalid Hc Hr (valid_indentFirst r Hvalid)
                (valid_indent r Hvalid)) as Hcount'.
  split; [done|]. split; [unfold GetResponseIndent; by rewrite Hcount|].
  split; [done|]. unfold GetResponse, GetResponseIndent. by rewrite Hcount'.
Qed.

(** C3. Whatever the configuration, a read that reports [io.EOF] makes
    [GetResponseIndent] return the replacement character and [io.EOF] at
    once: on the first read, when the input is used up, and in any later
    iteration of the loop, having printed the prompt of that iteration and
    nothing more, and leaving the rest of the input unread. A read error
    other than [io.EOF] is treated as an invalid character is: the attempt
    is counted, and the loop gives up or complains and prompts again. *)
Theorem end_of_input_returns_at_once (r : R) (first second : Z) (c : rune)
    (fuel : nat) (i : Z) (prefix : string) (w : World) :
  0 ≤ first → 0 ≤ second →
  GetResponseIndent r first second (feed (c, Some io_EOF) w)
  = Returns (ReplacementChar, Some io_EOF)
      (write_stdout (spaces first +:+ promptText r) w)
  ∧ (0 ≤ indentFirst r → 0 ≤ indent r →
     GetResponse r (feed (c, Some io_EOF) w)
     = Returns (ReplacementChar, Some io_EOF)
         (write_stdout (spaces (indentFirst r) +:+ promptText r) w))
  ∧ (stdin w = [] →
     GetResponseIndent r first second w
     = Returns (ReplacementChar, Some io_EOF)
         (write_stdout (spaces first +:+ promptText r) w))
  ∧ responseLoop (S fuel) r second (spaces second) i prefix
      (feed (c, Some io_EOF) w)
    = Returns (int_incr i, (ReplacementChar, Some io_EOF))
        (write_stdout (prefix +:+ promptText r) w)
  ∧ (∀ msg,
       responseLoop (S fuel) r second (spaces second) i prefix
         (feed (c, Some (errorString msg)) w)
       = afterFailedAttempt fuel r second (spaces second) i (errorString msg)
           (write_stdout (prefix +:+ promptText r) w))
  ∧ (∀ x,
       invalid r x →
       responseLoop (S fuel) r second (spaces second) i prefix
         (feed (key x) w)
       = afterFailedAttempt fuel r second (spaces second) i (BadResponse x)
           (write_stdout (prefix +:+ promptText r) w)).
Proof.
  intros Hf Hs.
  assert (∀ fuel second i prefix,
    responseLoop (S fuel) r second (spaces second) i prefix
      (feed (c, Some io_EOF) w)
    = Returns (int_incr i, (ReplacementChar, Some io_EOF))
        (write_stdout (prefix +:+ promptText r) w)) as Hloop.
  { intros fuel' second' i' prefix'.
    by apply responseLoop_return; [apply respond_read_error| |]. }
  split; [|split; [|split; [|split; [|split]]]].
  - unfold GetResponseIndent.
    by rewrite GetResponseIndent_feed, Hloop by done.
  - intros Hif Hi. unfold GetResponse, GetResponseIndent.
    by rewrite GetResponseIndent_feed, Hloop by done.
  - intros Hin. unfold GetResponseIndent.
    rewrite GetResponseIndent_counting_loop by done.
    by rewrite responseLoop_empty.
  - apply Hloop.
  - intros msg. by eapply responseLoop_failed, respond_read_error.
  - intros x Hx. by eapply responseLoop_failed, respond_invalid.
Qed.

(** C5. For a responder built by [New] with a default, any whitespace
    character that is read is answered with the default itself, without an
    error and with no case folding of it. Without a default, a whitespace
    character is an invalid response: [getResp] returns the replacement
    character and a ["Bad response"] error, and the loop counts the attempt.
    (The whitespace of ASCII is its own lower-case form; for other
    whitespace that is a fact of the case table.) *)
Theorem whitespace_selects_the_default (text : string)
    (responses : gmap Z string) (opts : list RespOptFunc) (r : R) (c : rune)
    (first second : Z) (w : World) :
  New text responses opts = Ok r → IsSpace c = true →
  0 ≤ first → 0 ≤ second →
  (hasDflt r = true →
     respond r (key c) = (dflt r, None)
     ∧ GetResponseIndent r first second (feed (key c) w)
       = Returns (dflt r, None)
           (write_stdout (spaces first +:+ promptText r) w)
     ∧ GetResponse r (feed (key c) w)
       = Returns (dflt r, None)
           (write_stdout (spaces (indentFirst r) +:+ promptText r) w))
  ∧ (hasDflt r = false → c ≤ MaxASCII ∨ To_LowerCase c = c →
     respond r (key c) = (ReplacementChar, Some (BadResponse c))
     ∧ ∀ fuel i prefix,
         responseLoop (S fuel) r second (spaces second) i prefix
           (feed (key c) w)
         = afterFailedAttempt fuel r second (spaces second) i (BadResponse c)
             (write_stdout (prefix +:+ promptText r) w)).
Proof.
  intros (Hvalid & _ & _)%New_Ok_inv Hsp Hf Hs. split.
  - intros Hd.
    assert (respond r (key c) = (dflt r, None)) as Hr.
    { by rewrite respond_rune, Hd, Hsp. }
    assert (dflt r ≠ helpRune) as Hh.
    { by apply (Valid_help_not_key r), Hvalid. }
    assert (∀ first, 0 ≤ first →
      GetResponseIndent r first second (feed (key c) w)
      = Returns (dflt r, None)
          (write_stdout (spaces first +:+ promptText r) w)) as Hget.
    { intros first' Hf'. unfold GetResponseIndent.
      rewrite GetResponseIndent_feed by done.
      by rewrite (responseLoop_return _ _ _ _ _ _ _ _ _ _ Hr Hh eq_refl). }
    split; [done|]. split; [by apply Hget|].
    unfold GetResponse, GetResponseIndent.
    rewrite GetResponseIndent_feed by apply Hvalid.
    by rewrite (responseLoop_return _ _ _ _ _ _ _ _ _ _ Hr Hh eq_refl).
  - intros Hd Hlow.
    assert (ToLower c = c) as Hfix.
    { destruct (Z.le_gt_cases c MaxASCII) as [Hascii|Hbeyond];
        [by apply ToLower_ascii_space|].
      destruct Hlow as [Hascii|Htable]; [lia|].
      unfold ToLower. by destruct (Z.leb_spec c MaxASCII); [lia|]. }
    assert (invalid r c) as Hinv.
    { split; [by rewrite Hd|]. rewrite Hfix. split.
      - intros ->. done.
      - destruct (validResps r !! c) eqn:Hk; [|done].
        destruct (valid_keys r Hvalid c) as (_ & Hns & _); [by rewrite Hk|].
        congruence. }
    split; [by apply respond_invalid|].
    intros fuel i prefix. by eapply responseLoop_failed, respond_invalid.
Qed.


(** C8. The responder that the caller holds is the same after a call of
    [GetResponse], [GetResponseIndent], [PrintPrompt], [PrintValidResponses],
    [PrintHelp] or [PrintHelpIndent] as before it, whichever way the call
    ends, and so it is after any number of calls of [GetResponse]. *)
Theorem responder_is_never_changed (w : World) (first second indent : Z)
    (n : nat) :
  responder (world_after (invoke GetResponse w) w) = responder w
  ∧ responder (world_after (invoke (λ r, GetResponseIndent r first second) w) w)
    = responder w
  ∧ responder (snd (invoke PrintPrompt w)) = responder w
  ∧ responder (snd (invoke PrintValidResponses w)) = responder w
  ∧ responder (snd (invoke PrintHelp w)) = responder w
  ∧ responder (snd (invoke (λ r, PrintHelpIndent r indent) w)) = responder w
  ∧ responder (GetResponse_times n w) = responder w.
Proof.
  unfold invoke.
  split; [apply GetResponseIndent_frame|].
  split; [apply GetResponseIndent_frame|].
  split; [by rewrite PrintPrompt_writes|].
  split; [by rewrite PrintValidResponses_writes|].
  split; [by rewrite PrintHelp_writes|].
  split; [by rewrite PrintHelpIndent_writes|].
  revert w. induction n as [|n IH]; intros w; [done|]. simpl.
  rewrite IH. apply GetResponseIndent_frame.
Qed.

(** C9. For a responder built by [New], [GetResponse] and
    [GetResponseIndent] (given indents that are not negative) return, and a
    rune returned without an error is a key of the map of valid responses;
    it is never the help rune. *)
Theorem accepted_rune_is_a_valid_response (text : string)
    (responses : gmap Z string) (opts : list RespOptFunc) (r : R)
    (first second : Z) (w : World) :
  New text responses opts = Ok r →
  (∃ c err w',
     GetResponse r w = Returns (c, err) w'
     ∧ (err = None → is_Some (responses !! c) ∧ c ≠ helpRune))
  ∧ (0 ≤ first → 0 ≤ second →
     ∃ c err w',
       GetResponseIndent r first second w = Returns (c, err) w'
       ∧ (err = None → is_Some (responses !! c) ∧ c ≠ helpRune)).
Proof.
  intros (Hvalid & _ & <-)%New_Ok_inv.
  assert (∀ first second, 0 ≤ first → 0 ≤ second →
    ∃ c err w',
      GetResponseIndent r first second w = Returns (c, err) w'
      ∧ (err = None → is_Some (validResps r !! c) ∧ c ≠ helpRune)) as Hget.
  { intros first' second' Hf Hs.
    destruct (GetResponseIndent_returns r first' second' w Hf Hs)
      as (c & err & w' & Hret & _ & Hc & _ & Hkey).
    exists c, err, w'. split; [done|]. intros Herr. split; [|done].
    destruct (Hkey Herr) as [[-> Hd]|Hk]; [|done]. by apply Hvalid. }
  split; [|apply Hget]. apply Hget; apply Hvalid.
Qed.

(** C10. For a responder built by [New], [GetResponse] and
    [GetResponseIndent] (given indents that are not negative) return, and a
    rune returned with an error is [unicode.ReplacementChar]. *)
Theorem error_comes_with_ReplacementChar (text : string)
    (responses : gmap Z string) (opts : list RespOptFunc) (r : R)
    (first second : Z) (w : World) :
  New text responses opts = Ok r →
  (∃ c err w',
     GetResponse r w = Returns (c, err) w'
     ∧ (err ≠ None → c = ReplacementChar))
  ∧ (0 ≤ first → 0 ≤ second →
     ∃ c err w',
       GetResponseIndent r first second w = Returns (c, err) w'
       ∧ (err ≠ None → c = ReplacementChar)).
Proof.
  intros (Hvalid & _ & _)%New_Ok_inv.
  assert (∀ first second, 0 ≤ first → 0 ≤ second →
    ∃ c err w',
      GetResponseIndent r first second w = Returns (c, err) w'
      ∧ (err ≠ None → c = ReplacementChar)) as Hget.
  { intros first' second' Hf Hs.
    destruct (GetResponseIndent_returns r first' second' w Hf Hs)
      as (c & err & w' & Hret & _ & _ & Herr & _).
    by exists c, err, w'. }
  split; [|apply Hget]. apply Hget; apply Hvalid.
Qed.

End claims.

(** * The rest of the package *)

(** ** The variants that exit, the constructor that panics, and the fixed
    responder *)

Definition errExitStatus : Z := 1.

(** How a call of a method that may call [os.Exit] can end. [Unfinished]
    stands for [OutOfFuel] of the call it makes. *)
Inductive ending (A : Type) : Type :=
  | Comes (a : A) (w : World)
  | Exits (status : Z) (w : World)
  | Dies (msg : string) (w : World)
  | Unfinished.
Global Arguments Comes {A} a w.
Global Arguments Exits {A} status w.
Global Arguments Dies {A} msg w.
Global Arguments Unfinished {A}.

(** What a function that panics with an error hands back. *)
Inductive orPanic (A : Type) : Type :=
  | Value (a : A)
  | Panic (v : error).
Global Arguments Value {A} a.
Global Arguments Panic {A} v.

(** A plain call seen as a call that may exit. *)
Definition plain {A} (o : outcome A) : ending A :=
  match o with
  | Returns a w => Comes a w
  | Panics msg w => Dies msg w
  | OutOfFuel => Unfinished
  end.

Section exiting.
Context `{UnicodeTables} `{TextWrapper}.
Import unicode.

(** [NewOrPanic] *)
Definition NewOrPanic (text : string) (responses : gmap Z string)
    (opts : list RespOptFunc) : orPanic R :=
  match New text responses opts with
  | Err err => Panic err
  | Ok r => Value r
  end.

(** [GetResponseIndentOrDie]: the message is indented by [r.indent], not by
    the parameter [second]; [strings.Repeat] is evaluated after the empty
    line has been written. *)
Definition GetResponseIndentOrDie (r : R) (first second : Z) (w : World)
    : ending rune :=
  match GetResponseIndent r first second w with
  | Returns (resp, Some err) w =>
      let '(_, w) := os.Fprintln_Stderr "" w in
      match Str.Repeat " " (indent r) with
      | None => Dies "strings: negative Repeat count" w
      | Some ind =>
          let '(_, w) :=
            os.Fprintln_Stderr (ind +:+ "    " +:+ Error err) w in
          Exits errExitStatus w
      end
  | Returns (resp, None) w => Comes resp w
  | Panics msg w => Dies msg w
  | OutOfFuel => Unfinished
  end.

(** [GetResponseOrDie] *)
Definition GetResponseOrDie (r : R) (w : World) : ending rune :=
  GetResponseIndentOrDie r (indentFirst r) (indent r) w.

End exiting.

Module Fixed.

(** The struct [FixedResponse] *)
Record FixedResponse : Type := mkFixedResponse {
  Response : rune;
  Err : option error
}.

(** [FixedResponse.GetResponse] *)
Definition GetResponse (fr : FixedResponse) (w : World)
    : ending (rune * option error) :=
  Comes (Response fr, Err fr) w.

(** [FixedResponse.GetResponseOrDie] *)
Definition GetResponseOrDie (fr : FixedResponse) (w : World) : ending rune :=
  match Err fr with
  | Some _ => Exits errExitStatus w
  | None => Comes (Response fr) w
  end.

(** [FixedResponse.GetResponseIndent] *)
Definition GetResponseIndent (fr : FixedResponse) (first second : Z)
    (w : World) : ending (rune * option error) :=
  Comes (Response fr, Err fr) w.

(** [FixedResponse.GetResponseIndentOrDie] *)
Definition GetResponseIndentOrDie (fr : FixedResponse) (first second : Z)
    (w : World) : ending rune :=
  GetResponseOrDie fr w.

End Fixed.

(** The interface [Responder] *)
Class Responder (T : Type) := {
  responder_GetResponse : T → World → ending (rune * option error);
  responder_GetResponseOrDie : T → World → ending rune;
  responder_GetResponseIndent :
    T → Z → Z → World → ending (rune * option error);
  responder_GetResponseIndentOrDie : T → Z → Z → World → ending rune
}.

Global Instance R_Responder `{UnicodeTables} `{TextWrapper} : Responder R := {|
  responder_GetResponse r w := plain (GetResponse r w);
  responder_GetResponseOrDie := GetResponseOrDie;
  responder_GetResponseIndent r first second w :=
    plain (GetResponseIndent r first second w);
  responder_GetResponseIndentOrDie := GetResponseIndentOrDie
|}.

Global Instance FixedResponse_Responder : Responder Fixed.FixedResponse := {|
  responder_GetResponse := Fixed.GetResponse;
  responder_GetResponseOrDie := Fixed.GetResponseOrDie;
  responder_GetResponseIndent := Fixed.GetResponseIndent;
  responder_GetResponseIndentOrDie := Fixed.GetResponseIndentOrDie
|}.

(** ** Notions for the further properties *)

Section further_notions.
Context `{UnicodeTables} `{TextWrapper}.
Import unicode.

(** The last [SetDefault], [SetMaxReprompts] and [SetIndents] of a list of
    options. *)
Fixpoint lastDefault (opts : list RespOptFunc) : option rune :=
  match opts with
  | [] => None
  | o :: opts =>
      match lastDefault opts with
      | Some d => Some d
      | None => match o with SetDefault d => Some d | _ => None end
      end
  end.

Fixpoint lastMaxReprompts (opts : list RespOptFunc) : option Z :=
  match opts with
  | [] => None
  | o :: opts =>
      match lastMaxReprompts opts with
      | Some m => Some m
      | None => match o with SetMaxReprompts m => Some m | _ => None end
      end
  end.

Fixpoint lastIndents (opts : list RespOptFunc) : option (Z * Z) :=
  match opts with
  | [] => None
  | o :: opts =>
      match lastIndents opts with
      | Some fi => Some fi
      | None => match o with SetIndents f i => Some (f, i) | _ => None end
      end
  end.

(** The configured limit on the reprompts, if any. *)
Definition limit_of (r : R) : option Z :=
  if limitPrompts r then Some (maxReprompts r) else None.

(** A read on which the loop does not return unless the retries are used
    up: its attempt fails with [e], which is not [io.EOF]. *)
Definition fails (r : R) (rd : readRune) (e : error) : Prop :=
  respond r rd = (ReplacementChar, Some e) ∧ e ≠ io_EOF.

(** A read that the loop may go past: a help request or a failed attempt. *)
Definition passed_over (r : R) (rd : readRune) : Prop :=
  fst (respond r rd) = helpRune ∨ ∃ e, fails r rd e.

(** What [n] prompts in a row put on standard output, the first after
    [prefix] and the others after [secondPrefix]. *)
Fixpoint promptsText (r : R) (secondPrefix prefix : string) (n : nat)
    : string :=
  match n with
  | O => ""
  | S n =>
      (prefix +:+ promptText r) +:+ promptsText r secondPrefix secondPrefix n
  end.

(** What the failed attempts [es] that were retried put on standard
    error. *)
Definition complaints (secondPrefix : string) (es : list error) : string :=
  foldr (λ e t, complaint secondPrefix e +:+ t) "" es.

(** The lines of the help for the responses [keys]. *)
Definition helpLines (r : R) (indent : Z) (keys : list rune) : string :=
  foldr (λ k t,
           WrapPrefixed (fmt.fmtC k +:+ "  ") (description r k) (indent + 4)
           +:+ t) "" keys.

(** A responder agrees with itself: the variant that exits returns the rune
    that the plain variant returns without an error, in the same world, and
    exits with status 1 when the plain variant returns an error. *)
Definition OrDie_agrees {T} `{Responder T} (t : T) : Prop :=
  ∀ w,
    match responder_GetResponse t w with
    | Comes (c, None) w' => responder_GetResponseOrDie t w = Comes c w'
    | Comes (c, Some e) w' =>
        ∃ w'', responder_GetResponseOrDie t w = Exits errExitStatus w''
               ∧ stdin w'' = stdin w' ∧ stdout w'' = stdout w'
    | Exits _ _ => False
    | Dies msg w' => responder_GetResponseOrDie t w = Dies msg w'
    | Unfinished => False
    end.

End further_notions.

(** ** Options *)

Section options.
Context `{UnicodeTables}.
Import unicode.

Lemma runOpt_fields (o : RespOptFunc) (r0 r : R) :
  runOpt o r0 = Ok r →
  default_of r
  = match o with SetDefault d => Some d | _ => default_of r0 end
  ∧ limit_of r
    = match o with SetMaxReprompts m => Some m | _ => limit_of r0 end
  ∧ (indentFirst r, indent r)
    = match o with
      | SetIndents f i => (f, i)
      | _ => (indentFirst r0, indent r0)
      end.
Proof.
  destruct o as [d|m|f i]; simpl.
  - destruct (validResps r0 !! d); [|done]. by intros [= <-].
  - destruct (m <=? 0); [done|]. by intros [= <-].
  - destruct (i <? 0); [done|]. destruct (f <? 0); [done|]. by intros [= <-].
Qed.

Lemma runOpts_fields (opts : list RespOptFunc) (r0 r : R) :
  runOpts opts r0 = Ok r →
  default_of r = from_option Some (default_of r0) (lastDefault opts)
  ∧ limit_of r = from_option Some (limit_of r0) (lastMaxReprompts opts)
  ∧ (indentFirst r, indent r)
    = default (indentFirst r0, indent r0) (lastIndents opts).
Proof.
  revert r0. induction opts as [|o opts IH]; intros r0; simpl.
  { by intros [= <-]. }
  destruct (runOpt o r0) as [r1|e] eqn:Ho; [|done]. intros Hrest.
  apply runOpt_fields in Ho as (Hd & Hl & Hi).
  apply IH in Hrest as (-> & -> & ->). rewrite Hd, Hl, Hi.
  split; [|split].
  - destruct (lastDefault opts); [done|]. by destruct o.
  - destruct (lastMaxReprompts opts); [done|]. by destruct o.
  - destruct (lastIndents opts); [done|]. by destruct o.
Qed.

(** X1. Options are applied in the order given and a later option
    overrides an earlier one of its kind: the responder that [New] returns
    has the default of the last [SetDefault] (none without one), the limit
    of the last [SetMaxReprompts] (no limit without one) and the indents of
    the last [SetIndents] (both 0 without one). *)
Theorem New_last_option_wins (text : string) (responses : gmap Z string)
    (opts : list RespOptFunc) (r : R) :
  New text responses opts = Ok r →
  default_of r = lastDefault opts
  ∧ limit_of r = lastMaxReprompts opts
  ∧ (indentFirst r, indent r) = default (0, 0) (lastIndents opts).
Proof.
  unfold New, NewInOrder. simpl.
  destruct (size responses <=? 1)%nat; [done|].
  destruct (checkKeys (rangeKeys responses)); [done|].
  intros (-> & -> & ->)%runOpts_fields. split; [|split]; [| |done].
  - by destruct (lastDefault opts).
  - by destruct (lastMaxReprompts opts).
Qed.

Lemma runOpt_Err_same (o : RespOptFunc) (r r' : R) (e : error) :
  validResps r' = validResps r → runOpt o r = Err e → runOpt o r' = Err e.
Proof.
  intros Hsame. destruct o as [d|m|f i]; simpl.
  - rewrite Hsame. by destruct (validResps r !! d).
  - by destruct (m <=? 0).
  - destruct (i <? 0); [done|]. by destruct (f <? 0).
Qed.

Lemma runOpts_first_failure (pre post : list RespOptFunc) (o : RespOptFunc)
    (r : R) :
  Forall (λ o', ¬ optFails (validResps r) o') pre →
  optFails (validResps r) o →
  runOpts (pre ++ o :: post) r = runOpts [o] r.
Proof.
  intros Hpre Ho. revert r Hpre Ho.
  induction pre as [|p pre IH]; intros r Hpre Ho.
  - apply runOpt_fails in Ho as [e He]. simpl. by rewrite He.
  - apply Forall_cons in Hpre as [Hp Hpre].
    change (runOpts ((p :: pre) ++ o :: post) r)
      with (match runOpt p r with
            | Err e => Err e
            | Ok r => runOpts (pre ++ o :: post) r
            end).
    destruct (runOpt_cases p r) as [[e He]|[r1 Hr1]].
    { destruct Hp. apply runOpt_fails. by exists e. }
    rewrite Hr1. apply runOpt_Ok_inv in Hr1 as [_ Hsame].
    rewrite IH by (by rewrite Hsame).
    apply runOpt_fails in Ho as [e He]. simpl.
    by rewrite He, (runOpt_Err_same o r r1 e Hsame He).
Qed.


End options.

(** ** Retries *)

Section retries.
Context `{UnicodeTables} `{TextWrapper}.
Import unicode.

Lemma write_stderr_nil (w : World) : write_stderr "" w = w.
Proof. destruct w. unfold write_stderr; simpl. by rewrite Str.app_nil_r. Qed.

Lemma write_stderr_typed (t : string) (reads : list readRune) (w : World) :
  write_stderr t (typed reads w) = typed reads (write_stderr t w).
Proof.
  induction reads as [|rd reads IH]; simpl; [done|].
  change (write_stderr t (feed rd ?v)) with (feed rd (write_stderr t v)).
  by rewrite IH.
Qed.

Lemma typed_app (reads reads' : list readRune) (w : World) :
  typed (reads ++ reads') w = typed reads (typed reads' w).
Proof. unfold typed. by rewrite foldr_app. Qed.

Lemma fails_errorString (r : R) (rd : readRune) (e : error) :
  fails r rd e → ∃ msg, e = errorString msg.
Proof. intros [_ He]. destruct e as [|msg]; [done|]. by exists msg. Qed.

Lemma promptsText_snoc (r : R) (sp prefix : string) (n : nat) :
  promptsText r sp prefix (S n)
  = promptsText r sp prefix n
    +:+ ((match n with O => prefix | S _ => sp end) +:+ promptText r).
Proof.
  revert prefix. induction n as [|n IH]; intros prefix.
  - simpl. by rewrite Str.app_nil_r.
  - change (promptsText r sp prefix (S (S n)))
      with ((prefix +:+ promptText r) +:+ promptsText r sp sp (S n)).
    rewrite IH.
    change (promptsText r sp prefix (S n))
      with ((prefix +:+ promptText r) +:+ promptsText r sp sp n).
    rewrite !Str.app_assoc. by destruct n.
Qed.

(** Failed attempts that the limit allows: each is counted, complained
    about on standard error, and followed by another prompt. *)
Lemma responseLoop_failures (r : R) second sp (rds : list readRune)
    (es : list error) :
  Forall2 (fails r) rds es →
  ∀ fuel i prefix (w : World),
    0 ≤ i → i + Z.of_nat (length rds) < 2 ^ 63 →
    (limitPrompts r = true → i + Z.of_nat (length rds) ≤ maxReprompts r) →
    responseLoop (length rds + fuel) r second sp i prefix (typed rds w)
    = responseLoop fuel r second sp (i + Z.of_nat (length rds))
        (match rds with [] => prefix | _ => sp end)
        (write_stderr (complaints sp es)
           (write_stdout (promptsText r sp prefix (length rds)) w)).
Proof.
  induction 1 as [|rd e rds es Hfail Hrest IH]; intros fuel i prefix w Hi Hw Hl.
  { simpl. by rewrite Z.add_0_r, write_stdout_nil, write_stderr_nil. }
  destruct (fails_errorString _ _ _ Hfail) as [msg ->].
  destruct Hfail as [Hr _].
  assert (Z.of_nat (length (rd :: rds)) = Z.of_nat (length rds) + 1) as Hlen
    by (rewrite length_cons; lia).
  rewrite Hlen in Hw, Hl |- *.
  change (typed (rd :: rds) w) with (feed rd (typed rds w)).
  change (length (rd :: rds) + fuel)%nat with (S (length rds + fuel)).
  rewrite (responseLoop_failed _ _ _ _ _ _ _ _ _ _ Hr).
  unfold afterFailedAttempt.
  rewrite int_incr_small by lia.
  assert ((limitPrompts r && (maxReprompts r <? i + 1)) = false) as ->.
  { destruct (limitPrompts r); [|done]. simpl.
    specialize (Hl eq_refl). apply Z.ltb_ge. lia. }
  rewrite write_stdout_typed, write_stderr_typed.
  rewrite IH; [|lia|lia|intros Ht; specialize (Hl Ht); lia].
  rewrite !write_stdout_stderr, !write_stdout_app, !write_stderr_app.
  replace (i + 1 + Z.of_nat (length rds)) with (i + (Z.of_nat (length rds) + 1))
    by lia.
  by destruct rds.
Qed.

(** X2. Within the limit, a failed attempt is only a delay: after [k]
    reads that fail, [k] no more than the configured limit (any [k] without
    a limit), a read that [getResp] accepts as [x] makes
    [GetResponseIndent] return [x] without an error; the prompt has been
    printed [k + 1] times, every failure has been reported on standard
    error, and the attempt counter is [k + 1]. *)
Theorem retry_within_limit (r : R) (rds : list readRune) (es : list error)
    (rd : readRune) (x : rune) (first second : Z) (w : World) :
  Forall2 (fails r) rds es →
  respond r rd = (x, None) → x ≠ helpRune →
  Z.of_nat (length rds) < 2 ^ 63 - 1 →
  (limitPrompts r = true → Z.of_nat (length rds) ≤ maxReprompts r) →
  0 ≤ first → 0 ≤ second →
  GetResponseIndent_counting r first second (typed (rds ++ [rd]) w)
  = Returns (Z.of_nat (length rds) + 1, (x, None))
      (write_stderr (complaints (spaces second) es)
         (write_stdout
            (promptsText r (spaces second) (spaces first) (S (length rds)))
            w))
  ∧ GetResponseIndent r first second (typed (rds ++ [rd]) w)
    = Returns (x, None)
        (write_stderr (complaints (spaces second) es)
           (write_stdout
              (promptsText r (spaces second) (spaces first) (S (length rds)))
              w)).
Proof.
  intros Hfails Hr Hx Hlen Hlim Hf Hs.
  assert (GetResponseIndent_counting r first second (typed (rds ++ [rd]) w)
          = Returns (Z.of_nat (length rds) + 1, (x, None))
              (write_stderr (complaints (spaces second) es)
                 (write_stdout
                    (promptsText r (spaces second) (spaces first)
                       (S (length rds))) w))) as Hcount.
  { rewrite GetResponseIndent_counting_loop by done.
    rewrite stdin_typed, typed_app.
    replace (S (length ((rds ++ [rd]) ++ stdin w)))
      with (length rds + S (S (length (stdin w))))%nat
      by (rewrite !length_app; simpl; lia).
    rewrite (responseLoop_failures r second _ rds es Hfails);
      [|lia|lia|intros Ht; specialize (Hlim Ht); lia].
    change (typed [rd] w) with (feed rd w).
    rewrite !write_stdout_feed, !write_stderr_feed.
    rewrite (responseLoop_return _ _ _ _ _ _ _ _ _ _ Hr Hx eq_refl).
    rewrite int_incr_small by lia.
    rewrite write_stdout_stderr, write_stdout_app, promptsText_snoc.
    by destruct rds. }
  split; [done|]. unfold GetResponseIndent. by rewrite Hcount.
Qed.

(** X3. With a limit of [m] reprompts, the attempt that fails after [m]
    failed attempts ends the call: [GetResponseIndent] returns the
    replacement character with the error of that last attempt, having
    printed the prompt [m + 1] times and reported the [m] earlier failures,
    but not the last one, on standard error. *)
Theorem retries_used_up (r : R) (rds : list readRune) (es : list error)
    (rd : readRune) (e : error) (first second : Z) (w : World) :
  limitPrompts r = true → maxReprompts r = Z.of_nat (length rds) →
  Forall2 (fails r) rds es → fails r rd e →
  Z.of_nat (length rds) < 2 ^ 63 - 1 →
  0 ≤ first → 0 ≤ second →
  GetResponseIndent r first second (typed (rds ++ [rd]) w)
  = Returns (ReplacementChar, Some e)
      (write_stderr (complaints (spaces second) es)
         (write_stdout
            (promptsText r (spaces second) (spaces first) (S (length rds)))
            w)).
Proof.
  intros Hlim Hmax Hfails Hfail Hlen Hf Hs.
  destruct (fails_errorString _ _ _ Hfail) as [msg ->].
  destruct Hfail as [Hr _].
  unfold GetResponseIndent.
  rewrite GetResponseIndent_counting_loop by done.
  rewrite stdin_typed, typed_app.
  replace (S (length ((rds ++ [rd]) ++ stdin w)))
    with (length rds + S (S (length (stdin w))))%nat
    by (rewrite !length_app; simpl; lia).
  rewrite (responseLoop_failures r second _ rds es Hfails);
    [|lia|lia|intros _; lia].
  change (typed [rd] w) with (feed rd w).
  rewrite !write_stdout_feed, !write_stderr_feed.
  rewrite (responseLoop_failed _ _ _ _ _ _ _ _ _ _ Hr).
  unfold afterFailedAttempt. rewrite int_incr_small by lia.
  rewrite Hlim, Hmax.
  assert ((Z.of_nat (length rds) <? 0 + Z.of_nat (length rds) + 1) = true) as ->
    by (apply Z.ltb_lt; lia).
  simpl andb. cbv iota.
  rewrite write_stdout_stderr, write_stdout_app, promptsText_snoc.
  by destruct rds.
Qed.

End retries.

(** ** What a call consumes and what it returns *)

Section settling.
Context `{UnicodeTables} `{TextWrapper}.
Import unicode.

Lemma respond_cases_fails (r : R) (rd : readRune) :
  fst (respond r rd) = helpRune
  ∨ (∃ c err, respond r rd = (c, err) ∧ c ≠ helpRune ∧ nil_or_EOF err = true)
  ∨ (∃ e, fails r rd e).
Proof.
  destruct (respond_cases r rd) as [?|[?|[msg Hr]]]; [by auto..|].
  right; right. by exists (errorString msg).
Qed.

(** The loop returns the response to the first read that settles the call,
    having gone past help requests and failed attempts only, and it only
    ever appends to the two output streams. An error other than [io.EOF]
    is returned only under a limit. *)
Lemma responseLoop_settles fuel (r : R) second sp i prefix (w : World) :
  (length (stdin w) < fuel)%nat →
  ∃ i' c err w' pre out errs,
    responseLoop fuel r second sp i prefix w = Returns (i', (c, err)) w'
    ∧ Forall (passed_over r) pre
    ∧ stdout w' = stdout w +:+ out
    ∧ stderr w' = stderr w +:+ errs
    ∧ ((stdin w = pre ∧ stdin w' = []
        ∧ c = ReplacementChar ∧ err = Some io_EOF)
       ∨ (∃ rd, stdin w = pre ++ rd :: stdin w' ∧ respond r rd = (c, err)))
    ∧ (nil_or_EOF err = false → limitPrompts r = true).
Proof.
  revert i prefix w. induction fuel as [|fuel IH]; intros i prefix w Hlen;
    [lia|].
  destruct w as [cfg inp o e0]. destruct inp as [|rd rest].
  { rewrite responseLoop_empty by done.
    exists (int_incr i), ReplacementChar, (Some io_EOF).
    eexists. exists []. eexists. exists "".
    split; [done|]. split; [constructor|]. split; [done|].
    split; [simpl; by rewrite Str.app_nil_r|]. split; [by left|done]. }
  change (mkWorld cfg (rd :: rest) o e0)
    with (feed rd (mkWorld cfg rest o e0)).
  simpl in Hlen.
  destruct (respond_cases_fails r rd)
    as [Hhelp|[(c & err & Hr & Hc & Herr)|(e & Hfail)]].
  - rewrite responseLoop_help by done.
    edestruct IH as (i' & c & err & w' & pre & out & errs
                     & -> & Hpre & Hout & Herrs & Hin & Hlim);
      [|exists i', c, err, w', (rd :: pre); eexists; exists errs].
    { simpl. lia. }
    split; [done|]. split; [constructor; [by left|done]|].
    split; [rewrite Hout; simpl; by rewrite Str.app_assoc|].
    split; [exact Herrs|]. split; [|done].
    destruct Hin as [(Hall & ? & ? & ?)|(rd' & Hsplit & ?)].
    + left. simpl in Hall |- *. by rewrite Hall.
    + right. exists rd'. simpl in Hsplit |- *. by rewrite Hsplit.
  - rewrite (responseLoop_return _ _ _ _ _ _ _ _ _ _ Hr Hc Herr).
    exists (int_incr i), c, err. eexists. exists []. eexists. exists "".
    split; [done|]. split; [constructor|]. split; [done|].
    split; [simpl; by rewrite Str.app_nil_r|].
    split; [right; by exists rd|]. by rewrite Herr.
  - destruct (fails_errorString _ _ _ Hfail) as [msg ->].
    destruct Hfail as [Hr Hne].
    rewrite (responseLoop_failed _ _ _ _ _ _ _ _ _ _ Hr).
    unfold afterFailedAttempt.
    destruct (limitPrompts r) eqn:Hlimit; simpl andb;
      [destruct (maxReprompts r <? int_incr i)|].
    + exists (int_incr i), ReplacementChar, (Some (errorString msg)).
      eexists. exists []. eexists. exists "".
      split; [done|]. split; [constructor|]. split; [done|].
      split; [simpl; by rewrite Str.app_nil_r|].
      split; [right; by exists rd|done].
    + edestruct IH as (i' & c & err & w' & pre & out & errs
                       & -> & Hpre & Hout & Herrs & Hin & Hlim);
        [|exists i', c, err, w', (rd :: pre); do 2 eexists].
      { simpl. lia. }
      split; [done|].
      split; [constructor; [right; by exists (errorString msg)|done]|].
      split; [rewrite Hout; simpl; by rewrite Str.app_assoc|].
      split; [rewrite Herrs; simpl; by rewrite Str.app_assoc|].
      split; [|done].
      destruct Hin as [(Hall & ? & ? & ?)|(rd' & Hsplit & ?)].
      * left. simpl in Hall |- *. by rewrite Hall.
      * right. exists rd'. simpl in Hsplit |- *. by rewrite Hsplit.
    + edestruct IH as (i' & c & err & w' & pre & out & errs
                       & -> & Hpre & Hout & Herrs & Hin & Hlim);
        [|exists i', c, err, w', (rd :: pre); do 2 eexists].
      { simpl. lia. }
      split; [done|].
      split; [constructor; [right; by exists (errorString msg)|done]|].
      split; [rewrite Hout; simpl; by rewrite Str.app_assoc|].
      split; [rewrite Herrs; simpl; by rewrite Str.app_assoc|].
      split; [|done].
      destruct Hin as [(Hall & ? & ? & ?)|(rd' & Hsplit & ?)].
      * left. simpl in Hall |- *. by rewrite Hall.
      * right. exists rd'. simpl in Hsplit |- *. by rewrite Hsplit.
Qed.

(** X4. [GetResponseIndent] answers the first read that settles the call:
    it reads the input in order, goes past nothing but help requests and
    failed attempts, and returns what [getResp] makes of the next read,
    leaving the reads after it pending; if the input runs out first it
    returns [io.EOF]. It only ever appends to standard output and to
    standard error. *)
Theorem answers_first_settling_read (r : R) (first second : Z) (w : World) :
  0 ≤ first → 0 ≤ second →
  ∃ c err w' pre out errs,
    GetResponseIndent r first second w = Returns (c, err) w'
    ∧ Forall (passed_over r) pre
    ∧ stdout w' = stdout w +:+ out
    ∧ stderr w' = stderr w +:+ errs
    ∧ ((stdin w = pre ∧ stdin w' = []
        ∧ c = ReplacementChar ∧ err = Some io_EOF)
       ∨ (∃ rd, stdin w = pre ++ rd :: stdin w' ∧ respond r rd = (c, err))).
Proof.
  intros Hf Hs. unfold GetResponseIndent.
  rewrite GetResponseIndent_counting_loop by done.
  destruct (responseLoop_settles (S (length (stdin w))) r second
              (spaces second) 0 (spaces first) w)
    as (i' & c & err & w' & pre & out & errs & -> & Hrest); [lia|].
  exists c, err, w', pre, out, errs. split; [done|].
  destruct Hrest as (? & ? & ? & ? & _). done.
Qed.

(** X5. Without a limit on the reprompts the only error that
    [GetResponseIndent] returns is [io.EOF]: invalid responses and other
    read errors are retried for as long as there is input. *)
Theorem no_limit_only_EOF (r : R) (first second : Z) (w : World) :
  limitPrompts r = false → 0 ≤ first → 0 ≤ second →
  ∃ c err w',
    GetResponseIndent r first second w = Returns (c, err) w'
    ∧ (err = None ∨ err = Some io_EOF).
Proof.
  intros Hlimit Hf Hs. unfold GetResponseIndent.
  rewrite GetResponseIndent_counting_loop by done.
  destruct (responseLoop_settles (S (length (stdin w))) r second
              (spaces second) 0 (spaces first) w)
    as (i' & c & err & w' & pre & out & errs & -> & _ & _ & _ & _ & Hlim);
    [lia|].
  exists c, err, w'. split; [done|].
  destruct err as [[|msg]|]; [by right| |by left].
  specialize (Hlim eq_refl). congruence.
Qed.


(** X7. A responder built by [New] never hands back, as an accepted
    response, a rune that is upper case, whitespace or the help rune: the
    user's input is folded to lower case, whitespace selects the default,
    and the keys themselves are lower case. *)
Theorem accepted_rune_is_lowercase (text : string)
    (responses : gmap Z string) (opts : list RespOptFunc) (r : R)
    (first second : Z) (w w' : World) (c : rune) :
  New text responses opts = Ok r →
  GetResponseIndent r first second w = Returns (c, None) w' →
  IsUpper c = false ∧ IsSpace c = false ∧ c ≠ helpRune.
Proof.
  intros (Hvalid & _ & _)%New_Ok_inv Hret.
  pose proof (GetResponseIndent_total r first second w) as Ht.
  rewrite Hret in Ht. destruct Ht as [Hf Hs].
  destruct (GetResponseIndent_returns r first second w Hf Hs)
    as (c' & err & w'' & Hret' & _ & _ & _ & Hkey).
  rewrite Hret in Hret'. injection Hret' as <- <- <-.
  apply Hvalid. destruct (Hkey eq_refl) as [[-> Hd]|Hk]; [|done].
  by apply Hvalid.
Qed.

End settling.

(** ** The listings *)

Section listings.
Context `{UnicodeTables} `{TextWrapper}.
Import unicode.

(** X8. [getSortedValidResponses] returns the keys of the map, each once,
    in strictly ascending order, whatever the order in which the map is
    iterated. *)
Theorem getSortedValidResponses_spec (r : R) :
  StronglySorted Z.lt (getSortedValidResponses r)
  ∧ (∀ k, k ∈ getSortedValidResponses r ↔ is_Some (validResps r !! k))
  ∧ length (getSortedValidResponses r) = size (validResps r)
  ∧ (∀ keys, keys ≡ₚ rangeKeys (validResps r) →
       merge_sort Z.le keys = getSortedValidResponses r).
Proof.
  split; [apply getSortedValidResponses_sorted|].
  split; [apply getSortedValidResponses_elem|].
  split.
  - rewrite getSortedValidResponses_Permutation. apply length_rangeKeys.
  - intros keys Hp. apply sorted_keys_unique.
    + by rewrite merge_sort_Permutation.
    + apply (StronglySorted_merge_sort Z.le).
Qed.

Lemma concat_snoc (sep x : string) (l : list string) :
  l ≠ [] → String.concat sep (l ++ [x]) = String.concat sep l +:+ sep +:+ x.
Proof.
  induction l as [|a [|b l] IH]; intros Hl; [done|done|].
  change (String.concat sep ((a :: b :: l) ++ [x]))
    with (a +:+ sep +:+ String.concat sep ((b :: l) ++ [x])).
  rewrite IH by done.
  change (String.concat sep (a :: b :: l))
    with (a +:+ sep +:+ String.concat sep (b :: l)).
  by rewrite !Str.app_assoc.
Qed.

(** The responses as [PrintValidResponses] shows them: the default in
    brackets first, the others after it, the help rune last. *)
Definition shownResponses (r : R) : list string :=
  match default_of r with
  | Some d => ["[" +:+ fmt.fmtC d +:+ "]"]
  | None => []
  end ++ (fmt.fmtC <$> remaining r) ++ [fmt.fmtC helpRune].

(** X9. For any responder, also one with no response to list,
    [PrintValidResponses] writes an opening parenthesis, the shown
    responses joined by slashes, and ["): "]: a slash stands between two
    entries and nowhere else. The entries after the default are the keys
    other than the default in strictly ascending order. *)
Theorem PrintValidResponses_output (r : R) (w : World) :
  PrintValidResponses r w
  = (tt, write_stdout
           ("(" +:+ String.concat "/" (shownResponses r) +:+ "): ") w)
  ∧ StronglySorted Z.lt (remaining r)
  ∧ (∀ k, k ∈ remaining r
          ↔ is_Some (validResps r !! k) ∧ default_of r ≠ Some k).
Proof.
  split; [|split; [apply remaining_sorted | apply remaining_elem]].
  rewrite PrintValidResponses_writes. do 2 f_equal.
  unfold validResponsesText, shownResponses, default_of, listText, sepAfter.
  destruct (hasDflt r); destruct (remaining r) as [|k ks] eqn:Hrem.
  - change (String.concat "/" ([?a] ++ (fmt.fmtC <$> []) ++ [?b]))
      with (a +:+ "/" +:+ b).
    by rewrite !Str.app_assoc.
  - rewrite (app_assoc ["[" +:+ fmt.fmtC (dflt r) +:+ "]"]).
    rewrite concat_snoc by done.
    change (String.concat "/" ([?a] ++ (fmt.fmtC <$> k :: ks)))
      with (a +:+ "/" +:+ String.concat "/" (fmt.fmtC <$> k :: ks)).
    by rewrite !Str.app_assoc.
  - reflexivity.
  - change ([] ++ ?l) with l. rewrite concat_snoc by done.
    by rewrite !Str.app_assoc.
Qed.

Lemma printHelpKeys_lines (r : R) (keys : list rune) (indent : Z) :
  writes (printHelpKeys r keys indent) tt
    (helpLines r indent
       (filter (λ c, ¬ (hasDflt r = true ∧ c = dflt r)) keys)).
Proof.
  induction keys as [|k keys IH]; simpl.
  { apply writes_ret. }
  destruct (hasDflt r && (dflt r =? k)) eqn:Hskip.
  - apply andb_true_iff in Hskip as [Hd Hk%Z.eqb_eq].
    by rewrite filter_cons_False by (intros Hno; by apply Hno).
  - rewrite filter_cons_True.
    + eapply writes_bind; [apply writes_Print | apply IH].
    + intros [Hd ->]. by rewrite Hd, Z.eqb_refl in Hskip.
Qed.


End listings.

(** ** The variants that exit *)

Section dying.
Context `{UnicodeTables} `{TextWrapper}.
Import unicode.

Lemma GetResponseIndentOrDie_cases (r : R) (first second : Z) (w : World)
    (c : rune) (err : option error) (w' : World) :
  0 ≤ indent r →
  GetResponseIndent r first second w = Returns (c, err) w' →
  GetResponseIndentOrDie r first second w
  = match err with
    | None => Comes c w'
    | Some e =>
        Exits errExitStatus
          (write_stderr (complaint (spaces (indent r)) e) w')
    end.
Proof.
  intros Hi Hret. unfold GetResponseIndentOrDie. rewrite Hret.
  destruct err as [e|]; [|done].
  unfold os.Fprintln_Stderr. rewrite Repeat_spaces by done.
  by rewrite write_stderr_app.
Qed.


(** X12. Both implementations of [Responder] agree with themselves: the
    fixed responder always, and without touching the world, and a
    responder that has the invariants of [New]. Where the plain variant
    returns a rune without an error, the variant that exits returns that
    rune in the same world; where it returns an error, the variant that
    exits ends the process with status 1, with the same input pending and
    the same standard output. *)
Theorem responders_agree_with_themselves :
  (∀ fr : Fixed.FixedResponse,
     OrDie_agrees fr
     ∧ ∀ first second w,
         responder_GetResponse fr w = Comes (Fixed.Response fr, Fixed.Err fr) w
         ∧ responder_GetResponseIndent fr first second w
           = responder_GetResponse fr w
         ∧ responder_GetResponseIndentOrDie fr first second w
           = responder_GetResponseOrDie fr w)
  ∧ (∀ r : R, Valid r → OrDie_agrees r).
Proof.
  split.
  - intros [c err]. split; [|done]. intros w. simpl.
    unfold Fixed.GetResponseOrDie. simpl.
    destruct err as [e|]; [|done]. by exists w.
  - intros r Hvalid w. simpl. unfold GetResponse, GetResponseOrDie.
    destruct (GetResponseIndent_returns r (indentFirst r) (indent r) w)
      as (c & err & w' & Hret & _); [apply Hvalid..|].
    rewrite Hret. simpl.
    rewrite (GetResponseIndentOrDie_cases _ _ _ _ _ _ _
               (valid_indent r Hvalid) Hret).
    destruct err as [e|]; [|done]. by eexists.
Qed.

End dying.

(** ** The responders of the package's examples *)

Import Latin1.

(** The terminal before anything is typed or printed. *)
Definition idle (r : R) : World := typing r [].

Example New_noDefault : New "Delete File" yn [] = Ok noDefault.
Proof. vm_compute. reflexivity. Qed.

Example New_withDefault :
  New "Delete File" yn [SetDefault 121] = Ok withDefault.
Proof. vm_compute. reflexivity. Qed.

Example New_twoReprompts :
  New "Delete File" yn [SetMaxReprompts 2] = Ok twoReprompts.
Proof. vm_compute. reflexivity. Qed.

(** [ExampleR_PrintPrompt_noDefault] *)
Example PrintPrompt_noDefault :
  stdout (snd (PrintPrompt noDefault (idle noDefault)))
  = "Delete File? (n/y/?): ".
Proof. vm_compute. reflexivity. Qed.

(** [ExampleR_PrintPrompt_withDefault] *)
Example PrintPrompt_withDefault :
  stdout (snd (PrintPrompt withDefault (idle withDefault)))
  = "Delete File? ([y]/n/?): ".
Proof. vm_compute. reflexivity. Qed.

(** A default that is not a response is refused. *)
Example New_default_not_a_response :
  New "Delete File" yn [SetDefault 97]
  = Err (errorString
           "SetDefault: the default response (a) is not in the list of valid responses").
Proof. vm_compute. reflexivity. Qed.

(** 'Y' is accepted as 'y'. *)
Example uppercase_Y_is_accepted :
  GetResponse noDefault (typing noDefault [89])
  = Returns (121, None)
      (mkWorld noDefault [] "Delete File? (n/y/?): " "")
  ∧ GetResponse noDefault (typing noDefault [121])
    = Returns (121, None)
        (mkWorld noDefault [] "Delete File? (n/y/?): " "").
Proof. split; vm_compute; reflexivity. Qed.

(** A space selects the default 'y'; without a default it is refused, and
    with the 'n' typed after it the second attempt succeeds. *)
Example space_with_and_without_default :
  GetResponse withDefault (typing withDefault [32])
  = Returns (121, None)
      (mkWorld withDefault [] "Delete File? ([y]/n/?): " "")
  ∧ GetResponseIndent_counting noDefault 0 0 (typing noDefault [32; 110])
    = Returns (2, (110, None))
        (mkWorld noDefault []
           "Delete File? (n/y/?): Delete File? (n/y/?): "
           (complaint "" (errorString "Bad response:  "))).
Proof. split; vm_compute; reflexivity. Qed.

(** Three times 'x' with two reprompts: three prompts, and the error of
    the third attempt. *)
Example three_times_x :
  ∃ w', GetResponse twoReprompts (typing twoReprompts [120; 120; 120])
        = Returns (ReplacementChar, Some (errorString "Bad response: x")) w'
        ∧ stdout w'
          = "Delete File? (n/y/?): Delete File? (n/y/?): Delete File? (n/y/?): "
        ∧ stdin w' = [].
Proof. eexists. split; [vm_compute; reflexivity|]. split; reflexivity. Qed.

(** ** The theorems at these responders *)



Lemma help_is_not_an_attempt_witness :
  ∃ w',
    GetResponseIndent_counting withDefault 0 0
      (typed (replicate 2 (key helpRune) ++ [key 89]) (idle withDefault))
    = Returns (1, (121, None)) w'
    ∧ GetResponseIndent withDefault 0 0
        (typed (replicate 2 (key helpRune) ++ [key 89]) (idle withDefault))
      = Returns (121, None) w'.
Proof.
  eexists.
  pose proof (help_is_not_an_attempt "Delete File" yn [SetDefault 121]
                withDefault 2 89 121 0 0 (idle withDefault)) as Hthm.
  destruct Hthm as (Hcount & Hget & _);
    [vm_compute; reflexivity | done | vm_compute; reflexivity | lia | lia |].
  split; [exact Hcount | exact Hget].
Defined.

Lemma end_of_input_witness :
  GetResponseIndent twoReprompts 0 0
    (feed (0, Some io_EOF) (typing twoReprompts [121]))
  = Returns (ReplacementChar, Some io_EOF)
      (write_stdout (spaces 0 +:+ promptText twoReprompts)
         (typing twoReprompts [121])).
Proof.
  refine (proj1 (end_of_input_returns_at_once twoReprompts 0 0 0 0%nat 0 ""
                   (typing twoReprompts [121]) _ _)); lia.
Defined.

Lemma whitespace_witness :
  (respond withDefault (key 32) = (dflt withDefault, None)
   ∧ GetResponseIndent withDefault 0 0 (feed (key 32) (idle withDefault))
     = Returns (dflt withDefault, None)
         (write_stdout (spaces 0 +:+ promptText withDefault)
            (idle withDefault))
   ∧ GetResponse withDefault (feed (key 32) (idle withDefault))
     = Returns (dflt withDefault, None)
         (write_stdout
            (spaces (indentFirst withDefault) +:+ promptText withDefault)
            (idle withDefault)))
  ∧ respond noDefault (key 9) = (ReplacementChar, Some (BadResponse 9)).
Proof.
  split.
  - apply (whitespace_selects_the_default "Delete File" yn [SetDefault 121]
             withDefault 32 0 0 (idle withDefault));
      first [lia | vm_compute; reflexivity].
  - apply (whitespace_selects_the_default "Delete File" yn []
             noDefault 9 0 0 (idle noDefault));
      first [lia | vm_compute; reflexivity | left; vm_compute; discriminate].
Defined.


Lemma accepted_rune_witness :
  ∃ c err w',
    GetResponse withDefault (typing withDefault [89]) = Returns (c, err) w'
    ∧ (err = None → is_Some (yn !! c) ∧ c ≠ helpRune).
Proof.
  refine (proj1 (accepted_rune_is_a_valid_response "Delete File" yn
                   [SetDefault 121] withDefault 0 0
                   (typing withDefault [89]) _)).
  vm_compute. reflexivity.
Defined.

Lemma error_rune_witness :
  ∃ c err w',
    GetResponse twoReprompts (typing twoReprompts [120; 120; 120])
    = Returns (c, err) w'
    ∧ (err ≠ None → c = ReplacementChar).
Proof.
  refine (proj1 (error_comes_with_ReplacementChar "Delete File" yn
                   [SetMaxReprompts 2] twoReprompts 0 0
                   (typing twoReprompts [120; 120; 120]) _)).
  vm_compute. reflexivity.
Defined.

Lemma PrintPrompt_output_witness :
  ∃ rest,
    StronglySorted Z.lt rest
    ∧ (∀ k, k ∈ rest ↔ is_Some (yn !! k) ∧ default_of withDefault ≠ Some k)
    ∧ PrintPrompt withDefault (idle withDefault)
      = (tt, write_stdout
               (promptLine "Delete File" (default_of withDefault) rest)
               (idle withDefault)).
Proof.
  apply (PrintPrompt_output "Delete File" yn [SetDefault 121]).
  vm_compute. reflexivity.
Defined.

(** ** The further properties at these responders *)

(** A responder whose options override one another. *)
Definition overridden : R :=
  built (New "Delete File" yn
           [SetDefault 110; SetMaxReprompts 5; SetIndents 1 1;
            SetDefault 121; SetIndents 2 4; SetMaxReprompts 2]).

Lemma New_last_option_wins_witness :
  default_of overridden = Some 121
  ∧ limit_of overridden = Some 2
  ∧ (indentFirst overridden, indent overridden) = (2, 4).
Proof.
  refine (New_last_option_wins "Delete File" yn
            [SetDefault 110; SetMaxReprompts 5; SetIndents 1 1;
             SetDefault 121; SetIndents 2 4; SetMaxReprompts 2]
            overridden _).
  vm_compute. reflexivity.
Defined.

(** A read error that is not [io.EOF]. *)
Definition boom : readRune := (0, Some (errorString "boom")).

Lemma retry_within_limit_witness :
  ∃ w',
    GetResponseIndent_counting twoReprompts 0 0
      (typed ([key 120; boom] ++ [key 89]) (idle twoReprompts))
    = Returns (3, (121, None)) w'
    ∧ GetResponseIndent twoReprompts 0 0
        (typed ([key 120; boom] ++ [key 89]) (idle twoReprompts))
      = Returns (121, None) w'.
Proof.
  eexists.
  refine (retry_within_limit twoReprompts [key 120; boom]
            [BadResponse 120; errorString "boom"] (key 89) 121 0 0
            (idle twoReprompts) _ _ _ _ _ _ _);
    first [ lia
          | done
          | vm_compute; reflexivity
          | intros _; vm_compute; discriminate
          | repeat constructor; vm_compute; (reflexivity || discriminate) ].
Defined.

Lemma retries_used_up_witness :
  ∃ w',
    GetResponseIndent twoReprompts 0 0
      (typed ([key 120; key 122] ++ [boom]) (idle twoReprompts))
    = Returns (ReplacementChar, Some (errorString "boom")) w'.
Proof.
  eexists.
  refine (retries_used_up twoReprompts [key 120; key 122]
            [BadResponse 120; BadResponse 122] boom (errorString "boom") 0 0
            (idle twoReprompts) _ _ _ _ _ _ _);
    first [ lia
          | vm_compute; reflexivity
          | repeat constructor; vm_compute; (reflexivity || discriminate) ].
Defined.

Lemma answers_first_settling_read_witness :
  ∃ c err w' pre out errs,
    GetResponseIndent noDefault 0 0 (typing noDefault [63; 120; 110; 121])
    = Returns (c, err) w'
    ∧ Forall (passed_over noDefault) pre
    ∧ stdout w' = stdout (typing noDefault [63; 120; 110; 121]) +:+ out
    ∧ stderr w' = stderr (typing noDefault [63; 120; 110; 121]) +:+ errs
    ∧ ((stdin (typing noDefault [63; 120; 110; 121]) = pre ∧ stdin w' = []
        ∧ c = ReplacementChar ∧ err = Some io_EOF)
       ∨ (∃ rd, stdin (typing noDefault [63; 120; 110; 121])
                = pre ++ rd :: stdin w'
                ∧ respond noDefault rd = (c, err))).
Proof.
  refine (answers_first_settling_read noDefault 0 0
            (typing noDefault [63; 120; 110; 121]) _ _); lia.
Defined.

Lemma no_limit_only_EOF_witness :
  ∃ c err w',
    GetResponseIndent noDefault 0 0 (typing noDefault [120; 120; 120])
    = Returns (c, err) w'
    ∧ (err = None ∨ err = Some io_EOF).
Proof.
  refine (no_limit_only_EOF noDefault 0 0
            (typing noDefault [120; 120; 120]) _ _ _);
    first [lia | vm_compute; reflexivity].
Defined.

Lemma accepted_rune_is_lowercase_witness :
  unicode.IsUpper 121 = false ∧ unicode.IsSpace 121 = false
  ∧ 121 ≠ helpRune.
Proof.
  refine (accepted_rune_is_lowercase "Delete File" yn [SetDefault 121]
            withDefault 0 0 (typing withDefault [89])
            (mkWorld withDefault [] "Delete File? ([y]/n/?): " "") 121 _ _);
    vm_compute; reflexivity.
Defined.


(** Three times 'x' against two reprompts, in the variant that exits: the
    process ends with status 1 and the third error is on standard error. *)
Example three_times_x_or_die :
  GetResponseOrDie twoReprompts (typing twoReprompts [120; 120; 120])
  = Exits 1
      (mkWorld twoReprompts []
         "Delete File? (n/y/?): Delete File? (n/y/?): Delete File? (n/y/?): "
         (complaint "" (errorString "Bad response: x")
          +:+ complaint "" (errorString "Bad response: x")
          +:+ complaint "" (errorString "Bad response: x"))).
Proof. vm_compute. reflexivity. Qed.

